(** * Cover-letter generator: the draft composer and the markup translator

    A shallow embedding of [generate_cover_letter] and [create_pdf] from
    [cover_letter_generator.py], with the Python built-ins they call
    ([str.split], [str.replace], [str.strip], [str.join], [list.index],
    list subscripting) written out as executable functions.

    A Python [str] is a sequence of Unicode code points; it is modelled as
    a list of code points, each an [N]. *)

From Stdlib Require Import String Ascii.
From Stdlib Require Import NArith ZArith Arith Bool Lia List.
Import ListNotations.

(** ** Python strings *)

Module Py.

Definition char := N.
Definition str := list char.

(** A source-code literal: every character of the literals of this program
    is ASCII, so a code point is the character's byte. *)
Definition lit (s : string) : str := map N_of_ascii (list_ascii_of_string s).

Fixpoint str_eqb (a b : str) : bool :=
  match a, b with
  | [], [] => true
  | x :: a', y :: b' => N.eqb x y && str_eqb a' b'
  | _, _ => false
  end.

(** [s.startswith(sub)] *)
Fixpoint startswith (s sub : str) {struct sub} : bool :=
  match sub, s with
  | [], _ => true
  | _ :: _, [] => false
  | y :: sub', x :: s' => N.eqb x y && startswith s' sub'
  end.

(** [s.find(sub)]: the lowest index where [sub] starts, [None] for -1. *)
Fixpoint find (s sub : str) : option nat :=
  if startswith s sub then Some 0
  else match s with
       | [] => None
       | _ :: s' => option_map S (find s' sub)
       end.

(** [s.count(sub)] for a non-empty [sub]: occurrences found from left to
    right, none overlapping an earlier one. *)
Fixpoint count_loop (fuel : nat) (s sub : str) : nat :=
  match fuel with
  | 0 => 0
  | S fuel' =>
      match find s sub with
      | None => 0
      | Some i => S (count_loop fuel' (skipn (i + length sub) s) sub)
      end
  end.

Definition count (s sub : str) : nat := count_loop (S (length s)) s sub.

(** [s.split(sep, maxsplit)] for a non-empty [sep] (an empty one raises
    ValueError in Python; every call of the program passes a literal).
    As in CPython: look for the next occurrence, cut the text before it,
    continue behind it; at most [maxsplit] cuts, no bound when negative. *)
Fixpoint split_loop (fuel : nat) (s sep : str) (maxsplit : Z) : list str :=
  match fuel with
  | 0 => [s]
  | S fuel' =>
      if Z.eqb maxsplit 0 then [s]
      else match find s sep with
           | None => [s]
           | Some i =>
               firstn i s
               :: split_loop fuel' (skipn (i + length sep) s) sep (maxsplit - 1)
           end
  end.

Definition split (s sep : str) (maxsplit : Z) : list str :=
  split_loop (S (length s)) s sep maxsplit.

(** [s.replace(old, new)] for a non-empty [old]: every occurrence found
    from left to right, in one pass. *)
Fixpoint replace_loop (fuel : nat) (s old new : str) : str :=
  match fuel with
  | 0 => s
  | S fuel' =>
      match find s old with
      | None => s
      | Some i =>
          firstn i s ++ new
          ++ replace_loop fuel' (skipn (i + length old) s) old new
      end
  end.

Definition replace (s old new : str) : str :=
  replace_loop (S (length s)) s old new.

(** [sep.join(parts)] *)
Fixpoint join (sep : str) (parts : list str) : str :=
  match parts with
  | [] => []
  | [p] => p
  | p :: ps => p ++ sep ++ join sep ps
  end.

(** [c.isspace()] on one code point: the Unicode white space of CPython
    ([_PyUnicode_IsWhitespace]). *)
Definition isspace (c : char) : bool :=
  ((9 <=? c) && (c <=? 13) || (28 <=? c) && (c <=? 32)
   || (c =? 133) || (c =? 160) || (c =? 5760)
   || (8192 <=? c) && (c <=? 8202)
   || (c =? 8232) || (c =? 8233) || (c =? 8239) || (c =? 8287)
   || (c =? 12288))%N.

Fixpoint lstrip (s : str) : str :=
  match s with
  | [] => []
  | c :: s' => if isspace c then lstrip s' else s
  end.

Definition rstrip (s : str) : str := rev (lstrip (rev s)).

(** [s.strip()] *)
Definition strip (s : str) : str := rstrip (lstrip s).

(** Truth value of a string: non-empty. *)
Definition truthy (s : str) : bool :=
  match s with [] => false | _ :: _ => true end.

End Py.

Import Py.

Declare Scope py_scope.
Delimit Scope py_scope with py.
Notation "'$' s" := (lit s%string) (at level 1, format "'$' s") : py_scope.
Open Scope py_scope.
Open Scope list_scope.

Definition nl : str := [10%N].

(** The delimiter of the blocks: the literal of two newlines. *)
Definition blank_line : str := nl ++ nl.

(** ** Exceptions

    A computation either raises ([inl]) or returns ([inr]). *)

Inductive exn : Set :=
| ValueError
| IndexError
| RendererError.

Definition result (A : Type) : Type := (exn + A)%type.

Definition ret {A : Type} (x : A) : result A := inr x.
Definition raise {A : Type} (e : exn) : result A := inl e.
Definition bind {A B : Type} (c : result A) (k : A -> result B) : result B :=
  match c with
  | inl e => inl e
  | inr x => k x
  end.

Notation "x <- c ;; k" := (bind c (fun x => k))
  (at level 61, c at next level, right associativity) : py_scope.

(** [l.index(x)]: the position of the first element equal to [x];
    ValueError when there is none. *)
Fixpoint index (l : list str) (x : str) : result nat :=
  match l with
  | [] => raise ValueError
  | y :: l' => if str_eqb y x then ret 0 else (n <- index l' x ;; ret (S n))
  end.

(** [l[i]] for a non-negative [i]: IndexError out of range. *)
Definition getitem (l : list str) (i : nat) : result str :=
  match nth_error l i with
  | Some x => ret x
  | None => raise IndexError
  end.

(** ** The draft composer: [generate_cover_letter]

    [system_prompt] and [user_query] are built and never used, and
    [time.sleep(1)] only delays; the returned text is the header followed
    by the stripped f-string [mock_letter]. The f-string is written here
    piece by piece, in source order; [experience] and [job_description]
    do not occur in it. *)

Definition mock_letter (job_title company : str) (skills : list str)
    (tone : str) : str :=
  nl
  ++ $"    Dear Hiring Team,"
     ++ nl
  ++ nl
  ++ $"    I am writing to express my enthusiastic interest in the "
     ++ $"**"
     ++ job_title
     ++ $"** position at **"
     ++ company
     ++ $"**. Having closely followed "
     ++ company
     ++ $"'s innovative work in [Relevant Industry], I am highly "
     ++ $"motivated by the opportunity to contribute my proven track "
     ++ $"record in "
     ++ join $", " (firstn 2 skills)
     ++ $", which align directly with the core demands of this role. "
     ++ $"My experience is centered on driving tangible results and "
     ++ $"leveraging technical expertise to achieve business "
     ++ $"objectives."
     ++ nl
  ++ nl
  ++ $"    Throughout my career, I have consistently exceeded "
     ++ $"performance goals by focusing on measurable impact. For "
     ++ $"instance, in a previous role, I successfully [elaborate on "
     ++ $"a key achievement from the Experience Summary] resulting in "
     ++ $"a **[use a number/percentage, e.g., 25%] increase in "
     ++ $"[metric, e.g., operational efficiency]** and **[use another "
     ++ $"measurable outcome, e.g., $50,000] in cost savings** over a "
     ++ $"fiscal year. I am confident in my ability to bring the same "
     ++ $"level of **"
     ++ tone
     ++ $"** drive and commitment to excellence to your team, "
     ++ $"immediately addressing the need for a professional skilled "
     ++ $"in [another highlighted skill]."
     ++ nl
  ++ nl
  ++ $"    # FIX 2: Joining the full list of skills back into a "
     ++ $"comma-separated string for display"
     ++ nl
  ++ $"    My specific technical abilities, including **"
     ++ join $", " skills
     ++ $"**, are perfectly suited to the challenges outlined in the "
     ++ $"job description, especially in the areas of [mention a "
     ++ $"specific challenge or requirement]. I excel at translating "
     ++ $"complex technical requirements into actionable plans and "
     ++ $"thrive in fast-paced environments where **"
     ++ tone
     ++ $"** problem-solving is critical. This blend of hands-on "
     ++ $"skill and strategic thinking positions me as an ideal "
     ++ $"candidate."
     ++ nl
  ++ nl
  ++ $"    I am eager for the opportunity to discuss how my "
     ++ $"background can directly benefit "
     ++ company
     ++ $". Thank you for your time and consideration."
     ++ nl
  ++ nl
  ++ $"    Sincerely,"
     ++ nl
  ++ nl
  ++ $"    [Your Name]"
     ++ nl
  ++ $"    ".

Definition professional_header : str :=
  $"**[Your Name]**" ++ nl
  ++ $"[Your Phone Number] | [Your Email Address]" ++ nl
  ++ $"[Your LinkedIn/Portfolio URL]" ++ nl ++ nl.

Definition generate_cover_letter (job_title company : str)
    (skills : list str) (experience tone job_description : str) : str :=
  professional_header ++ strip (mock_letter job_title company skills tone).

(** ** The markup translator: the loop of [create_pdf] *)

(** The two paragraph styles the function registers. *)
Inductive style : Set :=
| Header
| Body_Justify.

(** The flowables appended to [Story], as the data they are built from.
    The height of a spacer is a floating-point product in the source and
    is kept as it is written there: [times_inch c] stands for the
    expression c/100 * inch, not for a number. *)
Inductive height : Set :=
| times_inch (hundredths : N).

Inductive flowable : Type :=
| Paragraph (text : str) (st : style)
| Spacer (width : Z) (h : height).

(** Lines 146-154: the walk over the chunks, with the list built so far
    and the flag [in_bold]. *)
Definition emphasis_step (st : list str * bool) (chunk : str)
    : list str * bool :=
  let '(temp_html_para, in_bold) := st in
  if negb in_bold
  then (temp_html_para ++ [chunk], true)
  else (temp_html_para ++ [$"<b>" ++ chunk ++ $"</b>"], false).

Definition emphasis_loop (chunks : list str) : list str :=
  fst (fold_left emphasis_step chunks ([], false)).

(** Lines 141-157: newlines to line breaks, the alternating conversion,
    the join and the two clean-up replacements. *)
Definition generic_html (para_text : str) : str :=
  let html_para := replace para_text nl $"<br/>" in
  let temp_html_para := emphasis_loop (split html_para $"**" (-1)) in
  replace (replace (join [] temp_html_para) $"<b><b>" $"<b>")
          $"</b></b>" $"</b>".

(** Lines 141-166: the markup of one block. *)
Definition block_html (is_header : bool) (para_text : str) : result str :=
  let html_para := generic_html para_text in
  if is_header then
    let header_parts := split para_text $"**" 2 in
    if Nat.eqb (length header_parts) 3 then
      name <- getitem header_parts 1 ;;
      rest <- getitem header_parts 2 ;;
      ret ($"<b>" ++ name ++ $"</b><br/>" ++ replace rest nl $"<br/>")
    else ret html_para
  else ret html_para.

(** ** The loop of [create_pdf] and its renderer

    reportlab is not part of the program; two of its operations are
    parameters here. [Paragraph(text, style)] parses the markup when the
    object is made and raises ValueError when it cannot: [parses text st]
    tells whether it can. [doc.build(Story)] followed by
    [buffer.getvalue()] raises or leaves the document's bytes. Only the
    build is inside the [try] of lines 178-182, whose handler reports the
    error and returns [None]. The argument [filename] is never read. *)

Section Renderer.

Variable parses : str -> style -> bool.

Variable build : list flowable -> result (list Byte.byte).

(** The call [Paragraph(html_para, styles[...])] of lines 170 and 174. *)
Definition new_paragraph (html_para : str) (st : style) : result flowable :=
  if parses html_para st then ret (Paragraph html_para st)
  else raise ValueError.

(** Lines 127-176: one turn of the loop over [paragraphs]. *)
Definition loop_body (paragraphs : list str) (Story : list flowable)
    (para_text : str) : result (list flowable) :=
  if negb (truthy (strip para_text)) then ret Story
  else
    i <- index paragraphs para_text ;;
    let is_header := Nat.eqb i 0 in
    html_para <- block_html is_header para_text ;;
    if is_header
    then p <- new_paragraph html_para Header ;;
         ret (Story ++ [p; Spacer 1 (times_inch 25)])
    else p <- new_paragraph html_para Body_Justify ;;
         ret (Story ++ [p; Spacer 1 (times_inch 15)]).

Fixpoint for_each (paragraphs : list str) (Story : list flowable)
    (todo : list str) : result (list flowable) :=
  match todo with
  | [] => ret Story
  | para_text :: todo' =>
      Story' <- loop_body paragraphs Story para_text ;;
      for_each paragraphs Story' todo'
  end.

(** Lines 105-176: the story built from the text. *)
Definition build_story (cover_letter_text : str) : result (list flowable) :=
  let paragraphs := split cover_letter_text blank_line (-1) in
  for_each paragraphs [] paragraphs.

(** Lines 90-187. *)
Definition create_pdf (cover_letter_text : str)
    : result (option (list Byte.byte)) :=
  Story <- build_story cover_letter_text ;;
  match build Story with
  | inl _ => ret None
  | inr pdf_value => ret (Some pdf_value)
  end.

End Renderer.

(** The styled blocks of a story: its paragraphs, in order. *)
Fixpoint blocks (Story : list flowable) : list (style * str) :=
  match Story with
  | [] => []
  | Paragraph text st :: Story' => (st, text) :: blocks Story'
  | Spacer _ _ :: Story' => blocks Story'
  end.

(** The translator: the role and the markup of the paragraphs the loop
    asks [Paragraph] for, in order. The markup of a part does not depend
    on what [Paragraph] said to the parts before it, so the sequence is
    read off the run in which nothing is refused; with a refusal the loop
    asks for the blocks of this sequence up to the refused one and
    stops. *)
Definition translate (draft : str) : result (list (style * str)) :=
  Story <- build_story (fun _ _ => true) draft ;; ret (blocks Story).

(** ** The page: the button, the output section, the download name

    The script runs from top to bottom on every interaction. The values
    of the widgets are the inputs of a run and [st.session_state] is the
    state it reads and writes. A run that raises stops where it is, and
    what it has written to the state by then stays. Messages shown on the
    page are not part of the state. *)

Record session_state : Type := {
  generated_letter : option str;
  pdf_output : option (list Byte.byte)
}.

(** Lines 217-220. *)
Definition initial_state : session_state :=
  {| generated_letter := None; pdf_output := None |}.

(** The values the widgets give to one run. *)
Record widgets : Type := {
  job_title : str;
  skills : str;
  company_name : str;
  tone : str;
  experience : str;
  job_description : str;
  clicked : bool;
  edited_letter : str
}.

(** What a piece of the script leaves: the state, and the exception it
    raised if it did not complete. *)
Definition outcome : Type := (session_state * option exn)%type.

Section Page.

Variable parses : str -> style -> bool.

Variable build : list flowable -> result (list Byte.byte).

(** Lines 223-240: the body of [if st.button(...)]. The state is written
    after [create_pdf] has returned. *)
Definition generate_button (w : widgets) (state : session_state)
    : outcome :=
  if truthy (job_title w) && truthy (company_name w) && truthy (skills w)
     && truthy (experience w)
  then
    let letter_draft :=
      generate_cover_letter (job_title w) (company_name w)
        (split (skills w) $", " (-1)) (experience w) (tone w)
        (job_description w) in
    match create_pdf parses build letter_draft with
    | inl e => (state, Some e)
    | inr pdf_data =>
        ({| generated_letter := Some letter_draft;
            pdf_output := pdf_data |}, None)
    end
  else (state, None).

(** Lines 243-258: the output section, up to the new rendering. Line 257
    stores the edited text before line 258 calls [create_pdf]. *)
Definition output_section (w : widgets) (state : session_state)
    : outcome :=
  match generated_letter state with
  | Some letter =>
      if truthy letter then
        if negb (str_eqb (edited_letter w) letter) then
          let state' := {| generated_letter := Some (edited_letter w);
                           pdf_output := pdf_output state |} in
          match create_pdf parses build (edited_letter w) with
          | inl e => (state', Some e)
          | inr pdf_data =>
              ({| generated_letter := Some (edited_letter w);
                  pdf_output := pdf_data |}, None)
          end
        else (state, None)
      else (state, None)
  | None => (state, None)
  end.

(** One run of the script. *)
Definition script_run (w : widgets) (state : session_state) : outcome :=
  let button :=
    if clicked w then generate_button w state else (state, None) in
  match snd button with
  | Some e => (fst button, Some e)
  | None => output_section w (fst button)
  end.

(** Run after run; the session goes on after a run that raised. The
    state after the last run, and whether every run completed. *)
Fixpoint script_runs (ws : list widgets) (state : session_state)
    : session_state * bool :=
  match ws with
  | [] => (state, true)
  | w :: ws' =>
      let run := script_run w state in
      let later := script_runs ws' (fst run) in
      (fst later,
       match snd run with
       | None => snd later
       | Some _ => false
       end)
  end.

End Page.

(** Line 265: the name of the file offered for download. *)
Definition download_file_name (company_name job_title tone : str) : str :=
  company_name ++ $"_" ++ job_title ++ $"_" ++ replace tone $" " []
  ++ $"_Cover_Letter.pdf".

(** * Vocabulary of the statements

    Names for what the theorems below talk about. None of these is part
    of the program. *)

(** ** Markup *)

(** The line-break marker. *)
Definition br : str := $"<br/>".

(** The opening and the closing bold marker. *)
Definition open_tag : str := $"<b>".

Definition close_tag : str := $"</b>".

(** A segment wrapped in the bold pair. *)
Definition bold (c : str) : str := $"<b>" ++ c ++ $"</b>".

(** The parity rule in the words of the specification: counting the
    segments from 0, an even one is literal text and an odd one is wrapped
    in the bold pair. *)
Definition parity_rule (chunks : list str) : list str :=
  map (fun ic => if Nat.even (fst ic) then snd ic else bold (snd ic))
      (combine (seq 0 (length chunks)) chunks).

(** The walk as a recursion on the chunks still to come. *)
Fixpoint alternate (in_bold : bool) (chunks : list str) : list str :=
  match chunks with
  | [] => []
  | c :: cs => (if in_bold then bold c else c) :: alternate (negb in_bold) cs
  end.

(** The joined output of the walk, from a given state of the flag. *)
Definition joined (in_bold : bool) (chunks : list str) : str :=
  concat (alternate in_bold chunks).

(** The text that follows starts with a tag, or there is none. *)
Definition tag_start (t : str) : bool :=
  match t with
  | [] => true
  | c :: _ => N.eqb c 60
  end.

(** A text without a bold tag of its own. *)
Definition tag_free (c : str) : Prop :=
  find c open_tag = None /\ find c close_tag = None.

(** ** Blocks *)

(** A block the loop skips: nothing is left of it after [strip]. *)
Definition is_blank (para_text : str) : bool := negb (truthy (strip para_text)).

(** The role the loop gives to a block it keeps. *)
Definition role_of (paragraphs : list str) (para_text : str) : style :=
  match hd_error paragraphs with
  | Some first => if str_eqb first para_text then Header else Body_Justify
  | None => Body_Justify
  end.

(** The classification in the words of the specification: of the blocks
    that survive, the first is the Header and every later one is Body. *)
Definition first_surviving_is_header (draft : str) : Prop :=
  exists styled,
    translate draft = inr styled
    /\ match filter (fun p => negb (is_blank p))
                    (split draft blank_line (-1)) with
       | [] => map fst styled = []
       | _ :: later =>
           map fst styled = Header :: map (fun _ => Body_Justify) later
       end.

(** Reading a text from the left while remembering whether the last
    character read was a newline: [None] as soon as two newlines in a row
    have been read, otherwise the memory at the end. *)
Fixpoint scan_nl (prev : bool) (s : str) : option bool :=
  match s with
  | [] => Some prev
  | c :: s' =>
      if N.eqb c 10 then (if prev then None else scan_nl true s')
      else scan_nl false s'
  end.

(** ** The composed letter *)

(** The eight blocks of the draft, as the template lays them out; the
    first body block has lost its indentation to [strip]. *)
Definition header_block : str :=
  $"**[Your Name]**" ++ nl
  ++ $"[Your Phone Number] | [Your Email Address]" ++ nl
  ++ $"[Your LinkedIn/Portfolio URL]".

Definition salutation : str := $"Dear Hiring Team,".

Definition opening_paragraph (job_title company : str) (skills : list str)
    : str :=
  $"    I am writing to express my enthusiastic interest in the "
  ++ $"**"
  ++ job_title
  ++ $"** position at **"
  ++ company
  ++ $"**. Having closely followed "
  ++ company
  ++ $"'s innovative work in [Relevant Industry], I am highly "
  ++ $"motivated by the opportunity to contribute my proven track "
  ++ $"record in "
  ++ join $", " (firstn 2 skills)
  ++ $", which align directly with the core demands of this role. "
  ++ $"My experience is centered on driving tangible results and "
  ++ $"leveraging technical expertise to achieve business "
  ++ $"objectives.".

Definition achievement_paragraph (tone : str) : str :=
  $"    Throughout my career, I have consistently exceeded "
  ++ $"performance goals by focusing on measurable impact. For "
  ++ $"instance, in a previous role, I successfully [elaborate on "
  ++ $"a key achievement from the Experience Summary] resulting in "
  ++ $"a **[use a number/percentage, e.g., 25%] increase in "
  ++ $"[metric, e.g., operational efficiency]** and **[use another "
  ++ $"measurable outcome, e.g., $50,000] in cost savings** over a "
  ++ $"fiscal year. I am confident in my ability to bring the same "
  ++ $"level of **"
  ++ tone
  ++ $"** drive and commitment to excellence to your team, "
  ++ $"immediately addressing the need for a professional skilled "
  ++ $"in [another highlighted skill].".

Definition skills_paragraph (skills : list str) (tone : str) : str :=
  $"    # FIX 2: Joining the full list of skills back into a "
  ++ $"comma-separated string for display"
  ++ nl
  ++ $"    My specific technical abilities, including **"
  ++ join $", " skills
  ++ $"**, are perfectly suited to the challenges outlined in the "
  ++ $"job description, especially in the areas of [mention a "
  ++ $"specific challenge or requirement]. I excel at translating "
  ++ $"complex technical requirements into actionable plans and "
  ++ $"thrive in fast-paced environments where **"
  ++ tone
  ++ $"** problem-solving is critical. This blend of hands-on "
  ++ $"skill and strategic thinking positions me as an ideal "
  ++ $"candidate.".

Definition closing_paragraph (company : str) : str :=
  $"    I am eager for the opportunity to discuss how my "
  ++ $"background can directly benefit "
  ++ company
  ++ $". Thank you for your time and consideration.".

Definition sign_off : str := $"    Sincerely,".

Definition name_line : str := $"    [Your Name]".

Definition letter_blocks (job_title company : str) (skills : list str)
    (tone : str) : list str :=
  [header_block; salutation; opening_paragraph job_title company skills;
   achievement_paragraph tone; skills_paragraph skills tone;
   closing_paragraph company; sign_off; name_line].

(** The round trip in the words of the specification: one Header block,
    then three or four Body blocks. *)
Definition round_trip_three_or_four (job_title company : str)
    (skills : list str) (experience tone job_description : str) : Prop :=
  exists styled n,
    translate (generate_cover_letter job_title company skills experience
                 tone job_description) = inr styled
    /\ 3 <= n <= 4
    /\ map fst styled = Header :: repeat Body_Justify n.

(** ** More vocabulary: the story and the markup as functions *)

(** The gap the loop leaves after a paragraph of a style. *)
Definition gap_after (st : style) : height :=
  match st with
  | Header => times_inch 25
  | Body_Justify => times_inch 15
  end.

(** The markup of a header block: the fast path when the bounded split
    has three parts, the generic conversion otherwise. *)
Definition header_markup (para_text : str) : str :=
  match split para_text $"**" 2 with
  | [_; name; rest] => bold name ++ br ++ replace rest nl br
  | _ => generic_html para_text
  end.

(** The markup of a block with a given role. *)
Definition markup_of (st : style) (para_text : str) : str :=
  match st with
  | Header => header_markup para_text
  | Body_Justify => generic_html para_text
  end.

(** The two flowables of a kept block. *)
Definition flowables_of (paragraphs : list str) (para_text : str)
    : list flowable :=
  let st := role_of paragraphs para_text in
  [Paragraph (markup_of st para_text) st; Spacer 1 (gap_after st)].

(** A character other than the newline, than the star. *)
Definition not_nl (c : char) : bool := negb (N.eqb c 10).

Definition not_star (c : char) : bool := negb (N.eqb c 42).

(** Reading a text from the left and pairing the stars as they come:
    the number of pairs read, and whether a star is left waiting for its
    partner at the end. *)
Fixpoint star_pairs (pending : bool) (s : str) : nat :=
  match s with
  | [] => 0
  | c :: s' =>
      if N.eqb c 42
      then (if pending then S (star_pairs false s') else star_pairs true s')
      else star_pairs false s'
  end.

Fixpoint star_pending (pending : bool) (s : str) : bool :=
  match s with
  | [] => pending
  | c :: s' =>
      if N.eqb c 42
      then (if pending then star_pending false s' else star_pending true s')
      else star_pending false s'
  end.

(** The stored document is the rendering of the stored text. *)
Definition in_step (parses : str -> style -> bool)
    (build : list flowable -> result (list Byte.byte))
    (state : session_state) : Prop :=
  match generated_letter state with
  | Some letter => create_pdf parses build letter = inr (pdf_output state)
  | None => pdf_output state = None
  end.

(** The constructor takes the markup of a styled block. *)
Definition accepted (parses : str -> style -> bool) (b : style * str)
    : bool :=
  parses (snd b) (fst b).

(** What the constructor says to the markup the loop makes of a part. *)
Definition takes (parses : str -> style -> bool) (paragraphs : list str)
    (para_text : str) : bool :=
  parses (markup_of (role_of paragraphs para_text) para_text)
         (role_of paragraphs para_text).

(** Line 157 before the two replacements: the converted segments
    joined. *)
Definition conversion_output (para_text : str) : str :=
  join [] (emphasis_loop (split (replace para_text nl $"<br/>") $"**" (-1))).

(** The clean-up in the words of the specification: the markup of the
    block holds no two opening markers in a row and no two closing
    markers in a row. *)
Definition markers_collapsed (is_header : bool) (para_text : str) : Prop :=
  exists html_para,
    block_html is_header para_text = inr html_para
    /\ find html_para (open_tag ++ open_tag) = None
    /\ find html_para (close_tag ++ close_tag) = None.

(** A pattern in which the character [x] is never the last one and is
    never followed by [y]: no occurrence of it reaches across a place
    where [x] is followed by [y]. *)
Fixpoint apart (x y : char) (pat : str) : bool :=
  match pat with
  | [] => true
  | c :: pat' =>
      (negb (N.eqb x c)
       || match pat' with
          | [] => false
          | d :: _ => negb (N.eqb y d)
          end)
      && apart x y pat'
  end.

(** * Runs of the built-ins *)

Example split_ex1 : split $"x****y" $"**" (-1) = [$"x"; $""; $"y"].
Proof. reflexivity. Qed.
Example split_ex2 : split $"a**b**c**d" $"**" 2 = [$"a"; $"b"; $"c**d"].
Proof. reflexivity. Qed.
Example split_ex3 : split $"***" $"**" (-1) = [$""; $"*"].
Proof. reflexivity. Qed.
Example replace_ex1 : replace $"<b><b><b>" $"<b><b>" $"<b>" = $"<b><b>".
Proof. reflexivity. Qed.
Example strip_ex1 : strip $"  a b  " = $"a b".
Proof. reflexivity. Qed.

(** * Facts about the built-ins *)

Section Builtins.

Lemma str_eqb_eq (a b : str) : str_eqb a b = true <-> a = b.
Proof.
  revert b; induction a as [|x a IH]; intros [|y b]; simpl; split;
    try congruence; try reflexivity.
  - intros H; apply andb_prop in H as [H1 H2].
    apply N.eqb_eq in H1; apply IH in H2; congruence.
  - intros H; injection H as -> ->.
    rewrite N.eqb_refl; simpl; now apply IH.
Qed.

Lemma str_eqb_refl (a : str) : str_eqb a a = true.
Proof. now apply str_eqb_eq. Qed.

Lemma startswith_app (s sub : str) :
  startswith s sub = true <-> exists r, s = sub ++ r.
Proof.
  revert s; induction sub as [|y sub IH]; intros s; simpl.
  - split; [intros _; now exists s | reflexivity].
  - destruct s as [|x s].
    + split; [discriminate | intros [r Hr]; discriminate].
    + split.
      * intros H; apply andb_prop in H as [H1 H2].
        apply N.eqb_eq in H1; apply IH in H2 as [r ->].
        subst; now exists r.
      * intros [r Hr]; injection Hr as -> ->.
        rewrite N.eqb_refl; simpl; apply IH; now exists r.
Qed.

Lemma startswith_self_app (sub r : str) : startswith (sub ++ r) sub = true.
Proof. apply startswith_app; now exists r. Qed.

(** Where [find] answers, the text is cut there. *)
Lemma find_Some (s sub : str) (i : nat) :
  find s sub = Some i ->
  s = firstn i s ++ sub ++ skipn (i + length sub) s.
Proof.
  revert i; induction s as [|x s IH]; intros i; simpl.
  - destruct (startswith [] sub) eqn:E; [|discriminate].
    intros [= <-]; apply startswith_app in E as [r Hr].
    destruct sub; [reflexivity | discriminate].
  - destruct (startswith (x :: s) sub) eqn:E.
    + intros [= <-]; apply startswith_app in E as [r Hr].
      simpl; rewrite Hr at 1; f_equal; f_equal.
      rewrite Hr, skipn_app, Nat.sub_diag, skipn_all; reflexivity.
    + destruct (find s sub) as [j|] eqn:F; [|discriminate].
      intros [= <-]; simpl; f_equal; now apply IH.
Qed.

Lemma find_Some_length (s sub : str) (i : nat) :
  find s sub = Some i -> i + length sub <= length s.
Proof.
  revert i; induction s as [|x s IH]; intros i; simpl.
  - destruct (startswith [] sub) eqn:E; [|discriminate].
    intros [= <-]; apply startswith_app in E as [r Hr].
    destruct sub; [simpl; lia | discriminate].
  - destruct (startswith (x :: s) sub) eqn:E.
    + intros [= <-]; apply startswith_app in E as [r Hr].
      apply (f_equal (@length _)) in Hr; rewrite length_app in Hr.
      simpl in *; lia.
    + destruct (find s sub) as [j|] eqn:F; [|discriminate].
      intros [= <-]; specialize (IH j eq_refl); simpl; lia.
Qed.

Lemma find_Some_skip_length (s sub : str) (i : nat) :
  sub <> [] -> find s sub = Some i ->
  length (skipn (i + length sub) s) < length s.
Proof.
  intros Hs H; apply find_Some_length in H.
  rewrite length_skipn; destruct sub; [congruence | simpl in *; lia].
Qed.

(** [find] misses exactly the texts without an occurrence. *)
Lemma find_None (s sub : str) :
  find s sub = None <-> (forall l r, s <> l ++ sub ++ r).
Proof.
  induction s as [|x s IH]; simpl.
  - destruct (startswith [] sub) eqn:E; split; try discriminate.
    + intros H; apply startswith_app in E as [r Hr].
      exfalso; now apply (H [] r).
    + intros _ l r H; symmetry in H.
      apply app_eq_nil in H as [-> H]; apply app_eq_nil in H as [-> _].
      discriminate.
    + reflexivity.
  - destruct (startswith (x :: s) sub) eqn:E.
    + split; [discriminate|].
      intros H; apply startswith_app in E as [r Hr].
      exfalso; now apply (H [] r).
    + destruct (find s sub) as [j|] eqn:F; simpl.
      * split; [discriminate|]; intros H.
        apply find_Some in F; exfalso.
        apply (H (x :: firstn j s) (skipn (j + length sub) s)).
        simpl; now f_equal.
      * split; [intros _|reflexivity].
        intros [|y l] r H.
        -- simpl in H; rewrite H, startswith_self_app in E; discriminate.
        -- injection H as -> H. destruct IH as [IH _].
           now apply (IH eq_refl l r).
Qed.

(** The fuel given by [split], [replace] and [count] is enough. *)
Lemma split_loop_fuel (f1 f2 : nat) (s sep : str) (m : Z) :
  sep <> [] -> length s < f1 -> length s < f2 ->
  split_loop f1 s sep m = split_loop f2 s sep m.
Proof.
  intros Hsep; revert f2 s m; induction f1 as [|f1 IH]; intros f2 s m H1 H2.
  - lia.
  - destruct f2 as [|f2]; [lia|]; simpl.
    destruct (Z.eqb m 0); [reflexivity|].
    destruct (find s sep) as [i|] eqn:F; [|reflexivity].
    f_equal; pose proof (find_Some_skip_length _ _ _ Hsep F); apply IH; lia.
Qed.

Lemma replace_loop_fuel (f1 f2 : nat) (s old new : str) :
  old <> [] -> length s < f1 -> length s < f2 ->
  replace_loop f1 s old new = replace_loop f2 s old new.
Proof.
  intros Hold; revert f2 s; induction f1 as [|f1 IH]; intros f2 s H1 H2.
  - lia.
  - destruct f2 as [|f2]; [lia|]; simpl.
    destruct (find s old) as [i|] eqn:F; [|reflexivity].
    do 2 f_equal; pose proof (find_Some_skip_length _ _ _ Hold F); apply IH; lia.
Qed.

Lemma count_loop_fuel (f1 f2 : nat) (s sub : str) :
  sub <> [] -> length s < f1 -> length s < f2 ->
  count_loop f1 s sub = count_loop f2 s sub.
Proof.
  intros Hsub; revert f2 s; induction f1 as [|f1 IH]; intros f2 s H1 H2.
  - lia.
  - destruct f2 as [|f2]; [lia|]; simpl.
    destruct (find s sub) as [i|] eqn:F; [|reflexivity].
    f_equal; pose proof (find_Some_skip_length _ _ _ Hsub F); apply IH; lia.
Qed.

(** The loops as equations on the text. *)
Lemma split_eq (s sep : str) (m : Z) :
  sep <> [] ->
  split s sep m =
    if Z.eqb m 0 then [s]
    else match find s sep with
         | None => [s]
         | Some i => firstn i s :: split (skipn (i + length sep) s) sep (m - 1)
         end.
Proof.
  intros Hsep; unfold split at 1; simpl.
  destruct (Z.eqb m 0); [reflexivity|].
  destruct (find s sep) as [i|] eqn:F; [|reflexivity].
  f_equal; pose proof (find_Some_skip_length _ _ _ Hsep F).
  apply split_loop_fuel; auto; lia.
Qed.

Lemma replace_eq (s old new : str) :
  old <> [] ->
  replace s old new =
    match find s old with
    | None => s
    | Some i => firstn i s ++ new ++ replace (skipn (i + length old) s) old new
    end.
Proof.
  intros Hold; unfold replace at 1; simpl.
  destruct (find s old) as [i|] eqn:F; [|reflexivity].
  do 2 f_equal; pose proof (find_Some_skip_length _ _ _ Hold F).
  apply replace_loop_fuel; auto; lia.
Qed.

Lemma count_eq (s sub : str) :
  sub <> [] ->
  count s sub =
    match find s sub with
    | None => 0
    | Some i => S (count (skipn (i + length sub) s) sub)
    end.
Proof.
  intros Hsub; unfold count at 1; simpl.
  destruct (find s sub) as [i|] eqn:F; [|reflexivity].
  f_equal; pose proof (find_Some_skip_length _ _ _ Hsub F).
  apply count_loop_fuel; auto; lia.
Qed.

End Builtins.

(** * The alternating conversion *)

Section Emphasis.

Lemma fold_emphasis_step (chunks acc : list str) (in_bold : bool) :
  fst (fold_left emphasis_step chunks (acc, in_bold))
  = acc ++ alternate in_bold chunks.
Proof.
  revert acc in_bold; induction chunks as [|c cs IH]; intros acc b; simpl.
  - now rewrite app_nil_r.
  - destruct b; simpl; rewrite IH, <- app_assoc; reflexivity.
Qed.

Lemma emphasis_loop_alternate (chunks : list str) :
  emphasis_loop chunks = alternate false chunks.
Proof. unfold emphasis_loop; now rewrite fold_emphasis_step. Qed.

Lemma alternate_seq (chunks : list str) (k : nat) (in_bold : bool) :
  Nat.even k = negb in_bold ->
  alternate in_bold chunks
  = map (fun ic => if Nat.even (fst ic) then snd ic else bold (snd ic))
        (combine (seq k (length chunks)) chunks).
Proof.
  revert k in_bold; induction chunks as [|c cs IH]; intros k b Hk; simpl.
  - reflexivity.
  - rewrite Hk; f_equal.
    + now destruct b.
    + apply IH; rewrite Nat.even_succ, <- Nat.negb_even, Hk; reflexivity.
Qed.

Lemma alternate_last (chunks : list str) (in_bold : bool) :
  chunks <> [] ->
  last (alternate in_bold chunks) []
  = if Bool.eqb (Nat.even (length chunks)) (negb in_bold)
    then bold (last chunks [])
    else last chunks [].
Proof.
  revert in_bold; induction chunks as [|c cs IH]; intros b Hne.
  - congruence.
  - destruct cs as [|c' cs'].
    + now destruct b.
    + change (last (alternate b (c :: c' :: cs')) [])
        with (last (alternate (negb b) (c' :: cs')) []).
      rewrite IH by discriminate.
      change (last (c :: c' :: cs') []) with (last (c' :: cs') []).
      change (length (c :: c' :: cs')) with (S (length (c' :: cs'))).
      rewrite Nat.even_succ, <- Nat.negb_even.
      destruct (Nat.even (length (c' :: cs'))), b; reflexivity.
Qed.

Lemma str_length_ind (P : str -> Prop) :
  (forall s, (forall t, length t < length s -> P t) -> P s) ->
  forall s, P s.
Proof.
  intros H s; remember (length s) as n eqn:Hn.
  revert s Hn; induction n as [n IH] using lt_wf_ind; intros s ->.
  apply H; intros t Ht; now apply (IH (length t)).
Qed.

(** One segment more than there are delimiters. *)
Lemma split_length_count (s sep : str) (m : Z) :
  sep <> [] -> (m < 0)%Z -> length (split s sep m) = S (count s sep).
Proof.
  intros Hsep; revert m; induction s as [s IH] using str_length_ind.
  intros m Hm; rewrite split_eq, count_eq by assumption.
  destruct (Z.eqb_spec m 0); [lia|].
  destruct (find s sep) as [i|] eqn:F; [|reflexivity].
  simpl; f_equal; apply IH; [|lia].
  now apply find_Some_skip_length.
Qed.

End Emphasis.

(** C1. The emphasis conversion splits the text on the two-character
    delimiter and styles the segments by position alone: counted from 0,
    the even segments are literal and the odd ones are wrapped in the bold
    pair, whatever they contain; the block's generic markup is these
    segments joined, after the two clean-up replacements. There is one
    segment more than there are delimiters, so with an odd number of
    delimiters the last segment is emitted wrapped in the bold pair. *)
Theorem emphasis_by_position (text : str) :
  let chunks := split text $"**" (-1) in
  emphasis_loop chunks = parity_rule chunks
  /\ generic_html text
     = replace
         (replace
            (join [] (parity_rule (split (replace text nl br) $"**" (-1))))
            $"<b><b>" $"<b>")
         $"</b></b>" $"</b>"
  /\ length chunks = S (count text $"**")
  /\ (Nat.odd (count text $"**") = true ->
      last (emphasis_loop chunks) [] = bold (last chunks [])).
Proof.
  assert (P : forall chunks, emphasis_loop chunks = parity_rule chunks)
    by (intros cs; rewrite emphasis_loop_alternate; now apply alternate_seq).
  intros chunks; split; [apply P|]; split; [|split].
  - unfold generic_html; now rewrite P.
  - apply split_length_count; [discriminate | lia].
  - intros Hodd.
    assert (Hlen : length chunks = S (count text $"**"))
      by (apply split_length_count; [discriminate | lia]).
    rewrite emphasis_loop_alternate, alternate_last.
    + rewrite Hlen, Nat.even_succ, Hodd; reflexivity.
    + intros E; rewrite E in Hlen; discriminate.
Qed.

Lemma emphasis_by_position_witness :
  Nat.odd (count $"a**b**c**d" $"**") = true
  /\ last (emphasis_loop (split $"a**b**c**d" $"**" (-1))) [] = $"<b>d</b>".
Proof.
  split; [reflexivity|].
  exact (proj2 (proj2 (proj2 (emphasis_by_position $"a**b**c**d"))) eq_refl).
Defined.

(** * The header fast path *)

Section HeaderPath.

Lemma count_two_find (s sep : str) :
  sep <> [] -> 2 <= count s sep ->
  exists i j,
    find s sep = Some i
    /\ find (skipn (i + length sep) s) sep = Some j.
Proof.
  intros Hsep H; rewrite count_eq in H by assumption.
  destruct (find s sep) as [i|] eqn:F; [|lia].
  rewrite count_eq in H by assumption.
  destruct (find (skipn (i + length sep) s) sep) as [j|] eqn:G; [|lia].
  now exists i, j.
Qed.

Lemma split_two (s sep : str) (i j : nat) :
  sep <> [] ->
  find s sep = Some i ->
  find (skipn (i + length sep) s) sep = Some j ->
  split s sep 2
  = [firstn i s;
     firstn j (skipn (i + length sep) s);
     skipn (j + length sep) (skipn (i + length sep) s)].
Proof.
  intros Hsep F G.
  rewrite split_eq by assumption; simpl; rewrite F.
  rewrite split_eq by assumption; simpl; rewrite G.
  rewrite split_eq by assumption; reflexivity.
Qed.

Lemma split_two_parts (s sep : str) :
  sep <> [] -> length (split s sep 2) = 3 -> 2 <= count s sep.
Proof.
  intros Hsep; rewrite split_eq, count_eq by assumption; simpl.
  destruct (find s sep) as [i|] eqn:F; [|discriminate].
  rewrite split_eq, count_eq by assumption; simpl.
  destruct (find (skipn (i + length sep) s) sep) as [j|]; [lia|discriminate].
Qed.

Lemma block_html_three (para_text pre mid rest : str) :
  split para_text $"**" 2 = [pre; mid; rest] ->
  block_html true para_text
  = inr (bold mid ++ br ++ replace rest nl br).
Proof.
  intros H; unfold block_html; rewrite H; simpl.
  unfold bold, br; rewrite <- !app_assoc; reflexivity.
Qed.

Lemma block_html_not_three (para_text : str) :
  length (split para_text $"**" 2) <> 3 ->
  block_html true para_text = inr (generic_html para_text).
Proof.
  intros H; unfold block_html.
  destruct (Nat.eqb_spec (length (split para_text $"**" 2)) 3);
    [contradiction | reflexivity].
Qed.

Lemma block_html_body (para_text : str) :
  block_html false para_text = inr (generic_html para_text).
Proof. reflexivity. Qed.

(** The markup of a block is always produced: no subscript of
    [header_parts] is out of range. *)
Lemma block_html_returns (is_header : bool) (para_text : str) :
  exists html_para, block_html is_header para_text = inr html_para.
Proof.
  destruct is_header; [|eexists; apply block_html_body].
  destruct (Nat.eq_dec (length (split para_text $"**" 2)) 3) as [E|E].
  - destruct (split para_text $"**" 2) as [|pre [|mid [|rest [|]]]] eqn:S;
      try discriminate.
    eexists; eapply block_html_three; eassumption.
  - eexists; now apply block_html_not_three.
Qed.

End HeaderPath.

(** C6 evaluated on the code. For a header block, when the split of its
    text on the delimiter, bounded to the first two occurrences, does not
    give exactly three parts, the block's markup is the one of the
    generic alternating conversion and no subscript is out of range.
    When it gives exactly three parts, the markup is not the bolded
    middle part with the converted remainder appended: the fast path
    writes one more line break between the two, so the header
    [**Jane Doe**], newline, [phone] breaks the line twice after the
    name. *)
Theorem header_bounded_split (para_text : str) :
  let header_parts := split para_text $"**" 2 in
  (length header_parts <> 3 ->
   block_html true para_text = inr (generic_html para_text))
  /\ (forall pre mid rest, header_parts = [pre; mid; rest] ->
      block_html true para_text
      = inr (bold mid ++ br ++ replace rest nl br)
      /\ block_html true para_text
         <> inr (bold mid ++ replace rest nl br)).
Proof.
  split.
  - apply block_html_not_three.
  - intros pre mid rest S.
    rewrite (block_html_three _ _ _ _ S); split; [reflexivity|].
    intros [= E]; apply (f_equal (@length char)) in E.
    rewrite !length_app in E; cbn in E; lia.
Qed.

Lemma header_bounded_split_witness :
  (length (split $"**Jane Doe" $"**" 2) <> 3
   /\ block_html true $"**Jane Doe" = inr $"<b>Jane Doe</b>")
  /\ (split ($"**Jane Doe**" ++ nl ++ $"phone") $"**" 2
      = [ $""; $"Jane Doe"; nl ++ $"phone"]
      /\ block_html true ($"**Jane Doe**" ++ nl ++ $"phone")
         = inr $"<b>Jane Doe</b><br/><br/>phone"
      /\ block_html true ($"**Jane Doe**" ++ nl ++ $"phone")
         <> inr $"<b>Jane Doe</b><br/>phone").
Proof.
  split; split.
  - vm_compute; discriminate.
  - refine (proj1 (header_bounded_split $"**Jane Doe") _).
    vm_compute; discriminate.
  - reflexivity.
  - exact (proj2 (header_bounded_split ($"**Jane Doe**" ++ nl ++ $"phone"))
             _ _ _ eq_refl).
Defined.

(** C10. For a header block with at least two delimiters, the text cuts
    as lead, delimiter, middle, delimiter, remainder at the first two
    occurrences, and the markup is made of the middle and the remainder
    alone: the lead, empty or not, is nowhere in it, and the block gives
    the same markup as the one with its lead removed. *)
Theorem header_lead_discarded (para_text : str) :
  2 <= count para_text $"**" ->
  exists lead mid rest,
    para_text = lead ++ $"**" ++ mid ++ $"**" ++ rest
    /\ find para_text $"**" = Some (length lead)
    /\ block_html true para_text
       = inr (bold mid ++ br ++ replace rest nl br)
    /\ block_html true ($"**" ++ mid ++ $"**" ++ rest)
       = block_html true para_text.
Proof.
  intros H.
  destruct (count_two_find para_text $"**") as (i & j & F & G);
    [discriminate | assumption |].
  pose proof (find_Some _ _ _ F) as E1.
  pose proof (find_Some _ _ _ G) as E2.
  pose proof (find_Some_length _ _ _ F) as L1.
  set (s1 := skipn (i + length $"**") para_text) in *.
  exists (firstn i para_text), (firstn j s1), (skipn (j + length $"**") s1).
  assert (Hthree : block_html true para_text
                   = inr (bold (firstn j s1) ++ br
                          ++ replace (skipn (j + length $"**") s1) nl br)).
  { eapply block_html_three; apply split_two; [discriminate | exact F | exact G]. }
  repeat split.
  - rewrite <- E2; exact E1.
  - rewrite F; f_equal; rewrite length_firstn; simpl in L1; lia.
  - exact Hthree.
  - rewrite Hthree; rewrite <- E2.
    eapply block_html_three.
    assert (F0 : find ($"**" ++ s1) $"**" = Some 0) by reflexivity.
    rewrite (split_two ($"**" ++ s1) $"**" 0 j); [reflexivity | discriminate | exact F0 | exact G].
Qed.

Lemma header_lead_discarded_witness :
  2 <= count $"Dr. **Jane**x" $"**"
  /\ exists lead mid rest,
       $"Dr. **Jane**x" = lead ++ $"**" ++ mid ++ $"**" ++ rest
       /\ find $"Dr. **Jane**x" $"**" = Some (length lead)
       /\ block_html true $"Dr. **Jane**x"
          = inr (bold mid ++ br ++ replace rest nl br)
       /\ block_html true ($"**" ++ mid ++ $"**" ++ rest)
          = block_html true $"Dr. **Jane**x".
Proof.
  split.
  - vm_compute; lia.
  - apply header_lead_discarded; vm_compute; lia.
Defined.

Example lead_dropped_run :
  block_html true $"Dr. **Jane**x" = inr $"<b>Jane</b><br/>x".
Proof. reflexivity. Qed.

(** * The loop over the blocks *)

Section Loop.

Lemma lstrip_spaces (s : str) : forallb isspace s = true -> lstrip s = [].
Proof.
  induction s as [|c s IH]; simpl; [reflexivity|].
  intros H; apply andb_prop in H as [-> H]; now apply IH.
Qed.

Lemma lstrip_nil_spaces (s : str) : lstrip s = [] -> forallb isspace s = true.
Proof.
  induction s as [|c s IH]; simpl; [reflexivity|].
  destruct (isspace c); [exact IH | discriminate].
Qed.

Lemma lstrip_not_space (c : char) (s : str) :
  isspace c = false -> lstrip (c :: s) = c :: s.
Proof. intros H; simpl; now rewrite H. Qed.

(** What [lstrip] leaves is a tail of the text that, unless empty, starts
    with a character that is not white space. *)
Lemma lstrip_tail (s : str) :
  exists pre, s = pre ++ lstrip s /\ forallb isspace pre = true.
Proof.
  induction s as [|c s (pre & E & Hp)]; simpl.
  - now exists [].
  - destruct (isspace c) eqn:Hc.
    + exists (c :: pre); simpl; rewrite Hc, Hp; split; [now f_equal | reflexivity].
    + now exists [].
Qed.

(** A block is skipped exactly when all its characters are white space. *)
Lemma is_blank_spaces (s : str) : is_blank s = forallb isspace s.
Proof.
  unfold is_blank, strip, rstrip.
  destruct (forallb isspace s) eqn:H.
  - rewrite (lstrip_spaces s H); reflexivity.
  - destruct (lstrip (rev (lstrip s))) as [|c t] eqn:E.
    + apply lstrip_nil_spaces in E.
      rewrite forallb_forall in E.
      destruct (lstrip_tail s) as (pre & Hs & Hp).
      rewrite forallb_forall in Hp.
      assert (forallb isspace s = true); [|congruence].
      apply forallb_forall; intros x Hx; rewrite Hs in Hx.
      apply in_app_or in Hx as [Hx|Hx]; [now apply Hp|].
      apply E; now apply -> in_rev.
    + simpl; destruct (rev t ++ [c]) eqn:R; [|reflexivity].
      now apply app_eq_nil in R as [_ R].
Qed.

Lemma forallb_firstn (f : char -> bool) (n : nat) (s : str) :
  forallb f s = true -> forallb f (firstn n s) = true.
Proof.
  rewrite !forallb_forall; intros H x Hx; apply H.
  rewrite <- (firstn_skipn n s); apply in_or_app; now left.
Qed.

Lemma forallb_skipn (f : char -> bool) (n : nat) (s : str) :
  forallb f s = true -> forallb f (skipn n s) = true.
Proof.
  rewrite !forallb_forall; intros H x Hx; apply H.
  rewrite <- (firstn_skipn n s); apply in_or_app; now right.
Qed.

(** The parts of a split are made of the characters of the text. *)
Lemma split_forallb (f : char -> bool) (s sep : str) (m : Z) :
  sep <> [] -> forallb f s = true ->
  Forall (fun p => forallb f p = true) (split s sep m).
Proof.
  intros Hsep; revert m; induction s as [s IH] using str_length_ind.
  intros m Hs; rewrite split_eq by assumption.
  destruct (Z.eqb m 0); [now repeat constructor|].
  destruct (find s sep) as [i|] eqn:F; [|now repeat constructor].
  constructor; [now apply forallb_firstn|].
  apply IH; [now apply find_Some_skip_length | now apply forallb_skipn].
Qed.

Lemma index_head (l : list str) (x : str) (i : nat) :
  index l x = inr i -> (i = 0 <-> hd_error l = Some x).
Proof.
  destruct l as [|y l]; simpl; [discriminate|].
  destruct (str_eqb y x) eqn:E.
  - apply str_eqb_eq in E as ->; intros [= <-]; tauto.
  - destruct (index l x); simpl; [discriminate|].
    intros [= <-]; split; [discriminate|].
    intros [= ->]; rewrite str_eqb_refl in E; discriminate.
Qed.

(** An element of the list is found: no ValueError. *)
Lemma index_In (l : list str) (x : str) :
  In x l -> exists i, index l x = inr i.
Proof.
  induction l as [|y l IH]; simpl; [tauto|].
  intros H; destruct (str_eqb y x) eqn:E; [now exists 0|].
  destruct H as [->|H]; [rewrite str_eqb_refl in E; discriminate|].
  destruct (IH H) as [i ->]; now exists (S i).
Qed.

Lemma block_html_markup (st : style) (para_text : str) :
  block_html (match st with Header => true | Body_Justify => false end)
             para_text
  = inr (markup_of st para_text).
Proof.
  destruct st; [|reflexivity].
  unfold markup_of, header_markup.
  destruct (Nat.eq_dec (length (split para_text $"**" 2)) 3) as [E|E].
  - destruct (split para_text $"**" 2) as [|pre [|mid [|rest [|]]]] eqn:S;
      try discriminate.
    now apply block_html_three with (pre := pre).
  - rewrite (block_html_not_three _ E).
    destruct (split para_text $"**" 2) as [|pre [|mid [|rest [|]]]];
      try reflexivity.
    now contradiction E.
Qed.

Lemma index_role (paragraphs : list str) (para_text : str) (i : nat) :
  index paragraphs para_text = inr i ->
  Nat.eqb i 0
  = match role_of paragraphs para_text with
    | Header => true
    | Body_Justify => false
    end.
Proof.
  intros Hi; pose proof (index_head _ _ _ Hi) as Hh.
  unfold role_of; destruct (Nat.eqb_spec i 0) as [Hz|Hz].
  - apply Hh in Hz; now rewrite Hz, str_eqb_refl.
  - destruct (hd_error paragraphs) as [first|]; [|reflexivity].
    destruct (str_eqb first para_text) eqn:E; [|reflexivity].
    apply str_eqb_eq in E; subst first; tauto.
Qed.

Section Constructor.

Variable parses : str -> style -> bool.

Lemma loop_body_blank (paragraphs : list str) (Story : list flowable)
    (para_text : str) :
  is_blank para_text = true ->
  loop_body parses paragraphs Story para_text = inr Story.
Proof. unfold loop_body, is_blank; now intros ->. Qed.

(** A kept part: its two flowables are appended when the constructor
    takes its markup, and ValueError leaves the loop when it does not. *)
Lemma loop_body_flowables (paragraphs : list str) (Story : list flowable)
    (para_text : str) :
  In para_text paragraphs -> is_blank para_text = false ->
  loop_body parses paragraphs Story para_text
  = if takes parses paragraphs para_text
    then inr (Story ++ flowables_of paragraphs para_text)
    else inl ValueError.
Proof.
  intros Hin Hb; unfold loop_body; fold (is_blank para_text); rewrite Hb.
  destruct (index_In _ _ Hin) as [i Hi]; rewrite Hi.
  cbn [negb bind]; rewrite (index_role _ _ _ Hi).
  rewrite block_html_markup; cbn [bind]; unfold flowables_of, takes.
  unfold new_paragraph.
  destruct (role_of paragraphs para_text);
    destruct (parses _ _); reflexivity.
Qed.

Lemma for_each_flowables (paragraphs todo : list str)
    (Story : list flowable) :
  incl todo paragraphs ->
  for_each parses paragraphs Story todo
  = if forallb (takes parses paragraphs)
         (filter (fun p => negb (is_blank p)) todo)
    then inr (Story
              ++ flat_map (flowables_of paragraphs)
                          (filter (fun p => negb (is_blank p)) todo))
    else inl ValueError.
Proof.
  revert Story; induction todo as [|p todo IH]; intros Story Hincl.
  - simpl; now rewrite app_nil_r.
  - assert (Hp : In p paragraphs) by (apply Hincl; now left).
    assert (Ht : incl todo paragraphs)
      by (intros x Hx; apply Hincl; now right).
    cbn [for_each filter]; destruct (is_blank p) eqn:Hb; cbn [negb].
    + rewrite loop_body_blank by assumption; cbn [bind]; now apply IH.
    + rewrite loop_body_flowables by assumption; cbn [forallb].
      destruct (takes parses paragraphs p); cbn [bind andb]; [|reflexivity].
      rewrite IH by assumption; cbn [flat_map].
      now rewrite <- app_assoc.
Qed.

Lemma build_story_flowables (cover_letter_text : str) :
  let paragraphs := split cover_letter_text blank_line (-1) in
  let kept := filter (fun p => negb (is_blank p)) paragraphs in
  build_story parses cover_letter_text
  = if forallb (takes parses paragraphs) kept
    then inr (flat_map (flowables_of paragraphs) kept)
    else inl ValueError.
Proof.
  intros paragraphs kept; unfold build_story; fold paragraphs.
  now rewrite for_each_flowables by apply incl_refl.
Qed.

End Constructor.

Lemma blocks_flowables (paragraphs kept : list str) :
  blocks (flat_map (flowables_of paragraphs) kept)
  = map (fun p => (role_of paragraphs p,
                   markup_of (role_of paragraphs p) p)) kept.
Proof.
  induction kept as [|p kept IH]; [reflexivity|].
  cbn [flat_map map]; unfold flowables_of at 1; cbn [app blocks].
  now rewrite IH.
Qed.

Lemma build_story_all_taken (cover_letter_text : str) :
  build_story (fun _ _ => true) cover_letter_text
  = inr (flat_map
           (flowables_of (split cover_letter_text blank_line (-1)))
           (filter (fun p => negb (is_blank p))
                   (split cover_letter_text blank_line (-1)))).
Proof.
  rewrite build_story_flowables; cbv zeta.
  replace (forallb _ _) with true; [reflexivity|].
  symmetry; apply forallb_forall; reflexivity.
Qed.

Lemma translate_map_kept (draft : str) :
  translate draft
  = inr (map (fun p =>
                (role_of (split draft blank_line (-1)) p,
                 markup_of (role_of (split draft blank_line (-1)) p) p))
             (filter (fun p => negb (is_blank p))
                     (split draft blank_line (-1)))).
Proof.
  unfold translate; rewrite build_story_all_taken; cbn [bind]; unfold ret.
  now rewrite blocks_flowables.
Qed.

(** The loop, read through the blocks it hands to the constructor: it
    completes when all of them are taken and raises ValueError when one
    is refused. *)
Lemma build_story_translate (parses : str -> style -> bool)
    (draft : str) (styled : list (style * str)) :
  translate draft = inr styled ->
  build_story parses draft
  = if forallb (accepted parses) styled
    then inr (flat_map
                (flowables_of (split draft blank_line (-1)))
                (filter (fun p => negb (is_blank p))
                        (split draft blank_line (-1))))
    else inl ValueError.
Proof.
  rewrite translate_map_kept; intros [= <-].
  rewrite build_story_flowables; cbv zeta.
  replace (forallb (accepted parses) (map _ _))
    with (forallb (takes parses (split draft blank_line (-1)))
            (filter (fun p => negb (is_blank p))
                    (split draft blank_line (-1)))); [reflexivity|].
  induction (filter _ _) as [|p l IH]; [reflexivity|].
  cbn [map forallb]; now rewrite IH.
Qed.

Lemma blocks_app (a b : list flowable) :
  blocks (a ++ b) = blocks a ++ blocks b.
Proof.
  induction a as [|[t s|w h'] a IHa]; simpl;
    [reflexivity | now rewrite IHa | apply IHa].
Qed.

Lemma filter_all_blank (l : list str) :
  Forall (fun p => forallb isspace p = true) l ->
  filter (fun p => negb (is_blank p)) l = [].
Proof.
  induction 1 as [|p ps Hp _ IH]; simpl; [reflexivity|].
  rewrite is_blank_spaces, Hp; exact IH.
Qed.

End Loop.

(** C5 evaluated on the code. The loop hands the markup of every kept
    part to [Paragraph], outside the [try] of line 178. For a draft of
    white space only nothing is handed over and the story is empty. For
    any other draft the loop completes, with the handed-over blocks as its
    paragraphs, only when every markup is taken; as soon as one is
    refused, ValueError leaves the loop, so the routine is not total: the
    draft made of [H], a blank line and [if a<b then c] raises. *)
Theorem refused_markup_leaves_the_loop
    (parses : str -> style -> bool) (draft : str) :
  exists styled,
    translate draft = inr styled
    /\ (forallb isspace draft = true ->
        styled = [] /\ build_story parses draft = inr [])
    /\ (forallb (accepted parses) styled = true ->
        exists Story,
          build_story parses draft = inr Story /\ blocks Story = styled)
    /\ (forallb (accepted parses) styled = false ->
        build_story parses draft = inl ValueError).
Proof.
  eexists; split; [apply translate_map_kept|].
  rewrite (build_story_translate parses draft _ (translate_map_kept draft)).
  split; [|split].
  - intros Hws.
    rewrite filter_all_blank
      by (apply split_forallb; [discriminate | exact Hws]).
    split; reflexivity.
  - intros ->; eexists; split; [reflexivity | apply blocks_flowables].
  - now intros ->.
Qed.

Lemma refused_markup_leaves_the_loop_witness :
  translate ($"H" ++ nl ++ nl ++ $"if a<b then c")
  = inr [(Header, $"H"); (Body_Justify, $"if a<b then c")]
  /\ build_story (fun text _ => negb (str_eqb text $"if a<b then c"))
       ($"H" ++ nl ++ nl ++ $"if a<b then c")
     = inl ValueError
  /\ build_story (fun text _ => negb (str_eqb text $"if a<b then c"))
       ($"   " ++ nl ++ nl ++ $"  ")
     = inr [].
Proof.
  split; [reflexivity|]; split.
  - destruct (refused_markup_leaves_the_loop
                (fun text _ => negb (str_eqb text $"if a<b then c"))
                ($"H" ++ nl ++ nl ++ $"if a<b then c"))
      as (styled & E & _ & _ & R).
    apply R.
    vm_compute in E; injection E as <-; reflexivity.
  - destruct (refused_markup_leaves_the_loop
                (fun text _ => negb (str_eqb text $"if a<b then c"))
                ($"   " ++ nl ++ nl ++ $"  "))
      as (styled & _ & W & _).
    exact (proj2 (W eq_refl)).
Defined.

(** * The blocks of the composed letter *)

Section Composer.

Lemma join_cons (sep p : str) (ps : list str) :
  ps <> [] -> join sep (p :: ps) = p ++ sep ++ join sep ps.
Proof. destruct ps; [congruence | reflexivity]. Qed.

Lemma join_snoc (sep p : str) (ps : list str) :
  ps <> [] -> join sep (ps ++ [p]) = join sep ps ++ sep ++ p.
Proof.
  induction ps as [|q ps IH]; [congruence|]; intros _.
  destruct ps as [|q' ps]; [reflexivity|].
  change ((q :: q' :: ps) ++ [p]) with (q :: ((q' :: ps) ++ [p])).
  rewrite join_cons by (simpl; discriminate).
  rewrite IH by discriminate.
  rewrite (join_cons sep q) by discriminate.
  now rewrite <- !app_assoc.
Qed.

Lemma lstrip_app_spaces (a b : str) :
  forallb isspace a = true -> lstrip (a ++ b) = lstrip b.
Proof.
  induction a as [|c a IH]; simpl; [reflexivity|].
  intros H; apply andb_prop in H as [-> H]; now apply IH.
Qed.

Lemma lstrip_app_keep (a b : str) :
  lstrip a <> [] -> lstrip (a ++ b) = lstrip a ++ b.
Proof.
  induction a as [|c a IH]; simpl; [congruence|].
  destruct (isspace c); [exact IH | reflexivity].
Qed.

Lemma rstrip_app_keep (a b : str) :
  rstrip b <> [] -> rstrip (a ++ b) = a ++ rstrip b.
Proof.
  unfold rstrip; intros H.
  rewrite rev_app_distr, lstrip_app_keep.
  - now rewrite rev_app_distr, rev_involutive.
  - intros E; rewrite E in H; now apply H.
Qed.

(** The f-string is the blocks after the header, joined by blank lines,
    between an indented first line and an indented last one. *)
Lemma mock_letter_blocks (job_title company : str) (skills : list str)
    (tone : str) :
  mock_letter job_title company skills tone
  = (nl ++ $"    ")
    ++ join blank_line (tl (letter_blocks job_title company skills tone))
    ++ (nl ++ $"    ").
Proof.
  unfold mock_letter, letter_blocks, tl.
  cbn [join].
  unfold opening_paragraph, achievement_paragraph, skills_paragraph,
    closing_paragraph, salutation, sign_off, name_line, blank_line.
  rewrite <- !app_assoc.
  reflexivity.
Qed.

Lemma strip_mock_letter (job_title company : str) (skills : list str)
    (tone : str) :
  strip (mock_letter job_title company skills tone)
  = join blank_line (tl (letter_blocks job_title company skills tone)).
Proof.
  rewrite mock_letter_blocks; unfold strip.
  rewrite lstrip_app_spaces by reflexivity.
  unfold letter_blocks, tl.
  rewrite (join_cons blank_line salutation) by discriminate.
  rewrite <- app_assoc, lstrip_app_keep by (vm_compute; discriminate).
  replace (lstrip salutation) with salutation by reflexivity.
  rewrite (app_assoc salutation), <- (join_cons blank_line salutation)
    by discriminate.
  change [salutation; opening_paragraph job_title company skills;
          achievement_paragraph tone; skills_paragraph skills tone;
          closing_paragraph company; sign_off; name_line]
    with ([salutation; opening_paragraph job_title company skills;
           achievement_paragraph tone; skills_paragraph skills tone;
           closing_paragraph company; sign_off] ++ [name_line]).
  rewrite join_snoc by discriminate.
  set (J := join blank_line _).
  replace ((J ++ blank_line ++ name_line) ++ nl ++ $"    ")
    with ((J ++ blank_line) ++ (name_line ++ nl ++ $"    "))
    by (now rewrite <- !app_assoc).
  rewrite rstrip_app_keep by (vm_compute; discriminate).
  replace (rstrip (name_line ++ nl ++ $"    ")) with name_line by reflexivity.
  now rewrite <- !app_assoc.
Qed.

(** The draft is its eight blocks joined by blank lines. *)
Lemma generate_cover_letter_blocks (job_title company : str)
    (skills : list str) (experience tone job_description : str) :
  generate_cover_letter job_title company skills experience tone
    job_description
  = join blank_line (letter_blocks job_title company skills tone).
Proof.
  unfold generate_cover_letter; rewrite strip_mock_letter.
  unfold letter_blocks at 2; rewrite join_cons by discriminate.
  unfold professional_header, header_block, blank_line.
  now rewrite <- !app_assoc.
Qed.

End Composer.

(** * Blank lines in a composed letter *)

Section BlankLines.

Lemma scan_nl_app (t r : str) (p q : bool) :
  scan_nl p t = Some q -> scan_nl p (t ++ r) = scan_nl q r.
Proof.
  revert p; induction t as [|c t IH]; intros p; simpl.
  - now intros [= ->].
  - destruct (N.eqb c 10); [destruct p; [discriminate|]|]; apply IH.
Qed.

Lemma scan_nl_weaken (t : str) :
  scan_nl true t = Some false -> scan_nl false t = Some false.
Proof.
  destruct t as [|c t]; simpl; [discriminate|].
  destruct (N.eqb c 10); [discriminate | auto].
Qed.

Lemma scan_nl_any (t : str) (p : bool) :
  scan_nl true t = Some false -> scan_nl p t = Some false.
Proof. destruct p; [auto | apply scan_nl_weaken]. Qed.

Lemma find_cons_None (c : char) (s sub : str) :
  find (c :: s) sub = None ->
  startswith (c :: s) sub = false /\ find s sub = None.
Proof.
  cbn [find]; destruct (startswith (c :: s) sub); [discriminate|].
  destruct (find s sub); [discriminate | auto].
Qed.

Lemma startswith_blank_line (c : char) (s : str) :
  startswith (c :: s) blank_line = N.eqb c 10 && startswith s nl.
Proof. reflexivity. Qed.

Lemma startswith_nl (c : char) (s : str) :
  startswith (c :: s) nl = N.eqb c 10.
Proof. unfold nl; cbn [startswith]; apply andb_true_r. Qed.

(** A text without the delimiter reads through, from a state that does
    not put a newline in front of a newline. *)
Lemma find_None_scan (s : str) (p : bool) :
  find s blank_line = None ->
  (p = true -> startswith s nl = false) ->
  exists q, scan_nl p s = Some q.
Proof.
  revert p; induction s as [|c s IH]; intros p F Hp; [simpl; eauto|].
  apply find_cons_None in F as [E F].
  rewrite startswith_blank_line in E; rewrite startswith_nl in Hp.
  cbn [scan_nl]; destruct (N.eqb c 10); simpl in E.
  - destruct p; [now specialize (Hp eq_refl)|].
    apply IH; auto.
  - apply IH; [assumption | discriminate].
Qed.

Lemma scan_find_None (s : str) (p q : bool) :
  scan_nl p s = Some q -> find s blank_line = None.
Proof.
  revert p; induction s as [|c s IH]; intros p; [reflexivity|].
  cbn [scan_nl find]; rewrite startswith_blank_line.
  destruct (N.eqb c 10); cbn [andb].
  - destruct p; [discriminate|]; intros H; rewrite (IH _ H).
    destruct s as [|d s]; [reflexivity|].
    rewrite startswith_nl; cbn [scan_nl] in H.
    destruct (N.eqb d 10); [discriminate | reflexivity].
  - intros H; now rewrite (IH _ H).
Qed.

Lemma scan_find_sep (b r : str) (p : bool) :
  scan_nl p b = Some false ->
  find (b ++ blank_line ++ r) blank_line = Some (length b).
Proof.
  revert p; induction b as [|c b IH]; intros p; [reflexivity|].
  cbn [scan_nl]; intros H.
  change ((c :: b) ++ blank_line ++ r) with (c :: (b ++ blank_line ++ r)).
  cbn [find]; rewrite startswith_blank_line.
  assert (E : N.eqb c 10 && startswith (b ++ blank_line ++ r) nl = false).
  { destruct (N.eqb c 10); [|reflexivity]; cbn [andb].
    destruct p; [discriminate|].
    destruct b as [|d b]; [discriminate|].
    change ((d :: b) ++ blank_line ++ r) with (d :: (b ++ blank_line ++ r)).
    rewrite startswith_nl; cbn [scan_nl] in H.
    destruct (N.eqb d 10); [discriminate | reflexivity]. }
  rewrite E.
  destruct (N.eqb c 10); [destruct p; [discriminate|]|];
    rewrite (IH _ H); reflexivity.
Qed.

(** A field without the delimiter, followed by template text that neither
    starts nor ends with a newline, reads through. *)
Lemma scan_nl_field (f t r : str) :
  find f blank_line = None -> scan_nl true t = Some false ->
  scan_nl false (f ++ t ++ r) = scan_nl false r.
Proof.
  intros F T.
  destruct (find_None_scan f false F) as [q Hq]; [discriminate|].
  rewrite (scan_nl_app f _ _ _ Hq).
  apply scan_nl_app; now apply scan_nl_any.
Qed.

Lemma scan_nl_field_end (f t : str) :
  find f blank_line = None -> scan_nl true t = Some false ->
  scan_nl false (f ++ t) = Some false.
Proof.
  intros F T; rewrite <- (app_nil_r t); now rewrite scan_nl_field.
Qed.

(** Skills without the delimiter join into a text without it. *)
Lemma join_skills_clean (skills : list str) :
  Forall (fun s => find s blank_line = None) skills ->
  find (join $", " skills) blank_line = None.
Proof.
  induction 1 as [|s ss Hs Hss IH]; [reflexivity|].
  destruct ss as [|s' ss]; [exact Hs|].
  rewrite join_cons by discriminate.
  destruct (find_None_scan _ false IH) as [q Hq]; [discriminate|].
  apply scan_find_None with (p := false) (q := q).
  rewrite scan_nl_field; [exact Hq | exact Hs | reflexivity].
Qed.

Lemma firstn_clean (n : nat) (skills : list str) :
  Forall (fun s => find s blank_line = None) skills ->
  Forall (fun s => find s blank_line = None) (firstn n skills).
Proof.
  intros H; apply Forall_forall; intros x Hx.
  rewrite Forall_forall in H; apply H.
  rewrite <- (firstn_skipn n skills); apply in_or_app; now left.
Qed.

(** Joined blocks that hold no blank line and do not end in a newline
    split back into themselves. *)
Lemma split_join_blocks (parts : list str) (m : Z) :
  parts <> [] -> (m < 0)%Z ->
  Forall (fun b => scan_nl false b = Some false) parts ->
  split (join blank_line parts) blank_line m = parts.
Proof.
  intros Hne Hm H; revert m Hm; induction H as [|b bs Hb Hbs IH];
    [congruence|]; intros m Hm.
  destruct bs as [|b' bs].
  - simpl; rewrite split_eq by discriminate.
    destruct (Z.eqb_spec m 0); [lia|].
    now rewrite (scan_find_None _ _ _ Hb).
  - rewrite join_cons by discriminate.
    rewrite split_eq by discriminate.
    destruct (Z.eqb_spec m 0); [lia|].
    rewrite (scan_find_sep _ _ _ Hb).
    rewrite firstn_app, Nat.sub_diag, firstn_all, app_nil_r; f_equal.
    rewrite skipn_app, skipn_all2 by lia.
    replace (length b + length blank_line - length b) with 2
      by (simpl; lia).
    simpl skipn; apply IH; [discriminate | lia].
Qed.

End BlankLines.

(** * The composed letter under the translator *)

Section RoundTrip.

Variables job_title company tone : str.
Variable skills : list str.

Hypothesis job_title_clean : find job_title blank_line = None.
Hypothesis company_clean : find company blank_line = None.
Hypothesis tone_clean : find tone blank_line = None.
Hypothesis skills_clean : Forall (fun s => find s blank_line = None) skills.

Ltac read_through :=
  repeat first
    [ rewrite scan_nl_field_end by (assumption || reflexivity)
    | rewrite scan_nl_field by (assumption || reflexivity)
    | erewrite scan_nl_app by (vm_compute; reflexivity)
    | reflexivity ].

Lemma letter_blocks_read_through :
  Forall (fun b => scan_nl false b = Some false)
         (letter_blocks job_title company skills tone).
Proof.
  pose proof (join_skills_clean _ skills_clean) as Hall.
  pose proof (join_skills_clean _ (firstn_clean 2 _ skills_clean)) as Htwo.
  unfold letter_blocks; repeat constructor.
  - unfold opening_paragraph; read_through.
  - unfold achievement_paragraph; read_through.
  - unfold skills_paragraph; read_through.
  - unfold closing_paragraph; read_through.
Qed.

Lemma letter_paragraphs (experience job_description : str) :
  split (generate_cover_letter job_title company skills experience tone
           job_description) blank_line (-1)
  = letter_blocks job_title company skills tone.
Proof.
  rewrite generate_cover_letter_blocks.
  apply split_join_blocks;
    [discriminate | lia | apply letter_blocks_read_through].
Qed.

End RoundTrip.

Section Roles.

Lemma filter_all (f : str -> bool) (l : list str) :
  forallb f l = true -> filter f l = l.
Proof.
  induction l as [|x l IH]; simpl; [reflexivity|].
  intros H; apply andb_prop in H as [-> H]; now rewrite IH.
Qed.

Lemma letter_blocks_kept (job_title company : str) (skills : list str)
    (tone : str) :
  filter (fun p => negb (is_blank p))
         (letter_blocks job_title company skills tone)
  = letter_blocks job_title company skills tone.
Proof.
  apply filter_all; unfold letter_blocks; cbn [forallb].
  rewrite !is_blank_spaces; vm_compute; reflexivity.
Qed.

Lemma letter_blocks_roles (job_title company : str) (skills : list str)
    (tone : str) :
  map (role_of (letter_blocks job_title company skills tone))
      (letter_blocks job_title company skills tone)
  = Header :: repeat Body_Justify 7.
Proof. vm_compute; reflexivity. Qed.

End Roles.

(** * The layout of the letter and the roles of its blocks *)

Ltac gather_until t :=
  repeat match goal with
         | |- ?x ++ (?y ++ ?z) = _ =>
             lazymatch y with
             | t => fail
             | _ => rewrite (app_assoc x y z)
             end
         end.

Ltac open_letter :=
  rewrite generate_cover_letter_blocks;
  unfold letter_blocks; rewrite join_cons by discriminate;
  do 2 f_equal; cbn [join];
  unfold opening_paragraph, achievement_paragraph, skills_paragraph,
    closing_paragraph;
  match goal with
  | |- ?body = _ =>
      let b := fresh "body" in
      let Hb := fresh "Hbody" in
      remember body as b eqn:Hb; rewrite <- !app_assoc in Hb; subst b
  end.

(** C8. The composed draft is the fixed contact header (the name between
    two delimiters, then the phone and e-mail line and the URL line), a
    blank line, and the body. The opening paragraph holds the first two
    skills joined by a comma and a space, the skills paragraph further
    down holds the whole list joined the same way, and the tone stands at
    exactly two places of the body: as a function of the tone the draft is
    three fixed texts with the tone between them. *)
Theorem composed_letter_layout :
  (forall job_title company skills experience tone job_description,
     generate_cover_letter job_title company skills experience tone
       job_description
     = join blank_line (letter_blocks job_title company skills tone))
  /\ header_block
     = $"**" ++ $"[Your Name]" ++ $"**" ++ nl
       ++ $"[Your Phone Number] | [Your Email Address]" ++ nl
       ++ $"[Your LinkedIn/Portfolio URL]"
  /\ (forall job_title company skills experience job_description,
      exists lead between rest, forall tone,
        generate_cover_letter job_title company skills experience tone
          job_description
        = header_block ++ blank_line
          ++ lead ++ tone ++ between ++ tone ++ rest)
  /\ (forall job_title company experience tone job_description,
      exists lead between rest, forall skills,
        generate_cover_letter job_title company skills experience tone
          job_description
        = header_block ++ blank_line
          ++ lead ++ join $", " (firstn 2 skills)
          ++ between ++ join $", " skills ++ rest)
  /\ (forall job_title company,
      exists lead rest, forall skills,
        opening_paragraph job_title company skills
        = lead ++ join $", " (firstn 2 skills) ++ rest)
  /\ (forall tone,
      exists lead rest, forall skills,
        skills_paragraph skills tone = lead ++ join $", " skills ++ rest)
  /\ (forall first second more,
        join $", " (firstn 2 (first :: second :: more))
        = first ++ $", " ++ second).
Proof.
  split; [exact generate_cover_letter_blocks|].
  split; [reflexivity|].
  split; [|split; [|split; [|split]]].
  - intros job_title company skills experience job_description.
    do 3 eexists; intros tone; open_letter.
    gather_until tone; apply f_equal2; [reflexivity|]; apply f_equal.
    gather_until tone; reflexivity.
  - intros job_title company experience tone job_description.
    do 3 eexists; intros skills; open_letter.
    gather_until (join $", " (firstn 2 skills)).
    apply f_equal2; [reflexivity|]; apply f_equal.
    gather_until (join $", " skills); reflexivity.
  - intros job_title company; do 2 eexists; intros skills.
    unfold opening_paragraph.
    gather_until (join $", " (firstn 2 skills)); reflexivity.
  - intros tone; do 2 eexists; intros skills.
    unfold skills_paragraph.
    gather_until (join $", " skills); reflexivity.
  - reflexivity.
Qed.

Section Translated.

(** The roles of the blocks the translator emits. *)
Lemma translate_roles (draft : str) :
  exists styled,
    translate draft = inr styled
    /\ map fst styled
       = map (role_of (split draft blank_line (-1)))
             (filter (fun p => negb (is_blank p))
                     (split draft blank_line (-1))).
Proof.
  eexists; split; [apply translate_map_kept|].
  now rewrite map_map.
Qed.

Lemma composed_letter_roles (job_title company : str) (skills : list str)
    (experience tone job_description : str) :
  find job_title blank_line = None ->
  find company blank_line = None ->
  find tone blank_line = None ->
  Forall (fun s => find s blank_line = None) skills ->
  exists styled,
    translate (generate_cover_letter job_title company skills experience
                 tone job_description) = inr styled
    /\ map fst styled = Header :: repeat Body_Justify 7.
Proof.
  intros Hj Hc Ht Hs.
  destruct (translate_roles
              (generate_cover_letter job_title company skills experience
                 tone job_description)) as (styled & E & R).
  exists styled; split; [exact E|].
  rewrite R, letter_paragraphs by assumption.
  rewrite letter_blocks_kept; apply letter_blocks_roles.
Qed.

End Translated.

(** C3, as stated, fails on an ordinary request: the draft translates to
    a Header block followed by seven Body blocks. *)
Lemma round_trip_three_or_four_fails :
  ~ round_trip_three_or_four $"Senior Data Scientist" $"Gemini Labs"
      [ $"Python"; $"PyTorch"; $"A/B Testing"]
      $"Led a team of 3 engineers." $"Confident and Strategic" $"".
Proof.
  intros (styled & n & E & Hn & R).
  destruct (composed_letter_roles $"Senior Data Scientist" $"Gemini Labs"
              [ $"Python"; $"PyTorch"; $"A/B Testing"]
              $"Led a team of 3 engineers." $"Confident and Strategic" $"")
    as (styled' & E' & R'); try reflexivity.
  - repeat constructor.
  - rewrite E in E'; injection E' as <-.
    rewrite R in R'; apply (f_equal (@length _)) in R'.
    simpl in R'; rewrite repeat_length in R'; lia.
Qed.

(** C3, amended. When the job title, the company, the tone and every
    skill hold no blank line, the composed draft translates to exactly one
    Header block followed by exactly seven Body blocks: the salutation,
    the four paragraphs, the sign-off and the name line. *)
Theorem composed_letter_round_trip (job_title company : str)
    (skills : list str) (experience tone job_description : str) :
  find job_title blank_line = None ->
  find company blank_line = None ->
  find tone blank_line = None ->
  Forall (fun s => find s blank_line = None) skills ->
  exists styled,
    translate (generate_cover_letter job_title company skills experience
                 tone job_description) = inr styled
    /\ map fst styled = Header :: repeat Body_Justify 7.
Proof. apply composed_letter_roles. Qed.

Lemma composed_letter_round_trip_witness :
  exists styled,
    translate (generate_cover_letter $"Senior Data Scientist" $"Gemini Labs"
                 [ $"Python"; $"PyTorch"] $"Led a team."
                 $"Formal and Results-Driven" $"") = inr styled
    /\ map fst styled = Header :: repeat Body_Justify 7.
Proof.
  apply composed_letter_round_trip; try reflexivity.
  repeat constructor.
Defined.

(** C2, as stated, fails on a draft that starts with a blank line: its
    only surviving block is classified as Body and no Header is emitted. *)
Lemma first_surviving_is_header_fails :
  ~ first_surviving_is_header (nl ++ nl ++ $"Hello").
Proof.
  intros (styled & E & H).
  vm_compute in E; injection E as <-.
  vm_compute in H; discriminate.
Qed.

(** C2, amended. The blocks are the parts of the split on the blank line
    that are not white space only. For every draft, the part at the first
    position of the split, when it survives, is the Header, and a
    surviving part at a later position whose text differs from the first
    part's text is Body. So, when no later surviving part repeats the
    text of the first part, the roles are fixed by position alone: at
    most one Header, in front, there exactly when the first part of the
    split survives, and Body for every other surviving part. *)
Theorem header_is_first_part (draft : str) :
  let paragraphs := split draft blank_line (-1) in
  let later := filter (fun p => negb (is_blank p)) (tl paragraphs) in
  exists styled later_roles,
    translate draft = inr styled
    /\ map fst styled
       = (if is_blank (hd [] paragraphs) then [] else [Header])
         ++ later_roles
    /\ Forall2 (fun p r => p <> hd [] paragraphs -> r = Body_Justify)
               later later_roles
    /\ ((forall p, In p later -> p <> hd [] paragraphs) ->
        later_roles = map (fun _ => Body_Justify) later).
Proof.
  intros paragraphs later.
  destruct (translate_roles draft) as (styled & E & R).
  exists styled, (map (role_of paragraphs) later).
  split; [exact E|].
  fold paragraphs in R; rewrite R; clear R E; subst later.
  assert (B : forall p, p <> hd [] paragraphs ->
                        role_of paragraphs p = Body_Justify).
  { intros p Hp; unfold role_of.
    destruct paragraphs as [|first rest]; [reflexivity|].
    cbn [hd_error hd] in *.
    destruct (str_eqb first p) eqn:Eq; [|reflexivity].
    apply str_eqb_eq in Eq; congruence. }
  split; [|split].
  - destruct paragraphs as [|first rest]; [reflexivity|].
    cbn [hd tl filter].
    destruct (is_blank first); cbn [negb]; [reflexivity|].
    cbn [map app]; f_equal.
    unfold role_of; cbn [hd_error]; now rewrite str_eqb_refl.
  - induction (filter _ (tl paragraphs)) as [|p l IH];
      constructor; [apply B | exact IH].
  - intros Hlater; apply map_ext_in; intros p Hp; apply B; now apply Hlater.
Qed.

Lemma header_is_first_part_witness :
  (exists styled,
     translate ($"**Jane**" ++ nl ++ nl ++ $"Dear team," ++ nl ++ nl ++ $"Bye")
     = inr styled
     /\ map fst styled = [Header; Body_Justify; Body_Justify])
  /\ (exists styled,
        translate ($"Hi" ++ nl ++ nl ++ $"Hi" ++ nl ++ nl ++ $"Bye")
        = inr styled
        /\ nth 2 (map fst styled) Header = Body_Justify).
Proof.
  split.
  - destruct (header_is_first_part
                ($"**Jane**" ++ nl ++ nl ++ $"Dear team," ++ nl ++ nl
                 ++ $"Bye"))
      as (styled & roles & E & R & _ & L).
    exists styled; split; [exact E|].
    rewrite R, L; [reflexivity|].
    intros p Hp; vm_compute in Hp.
    destruct Hp as [<-|[<-|[]]]; discriminate.
  - destruct (header_is_first_part
                ($"Hi" ++ nl ++ nl ++ $"Hi" ++ nl ++ nl ++ $"Bye"))
      as (styled & roles & E & R & F & _).
    exists styled; split; [exact E|].
    rewrite R; vm_compute in F.
    inversion F as [|p1 r1 l1 rs1 _ F1]; subst.
    inversion F1 as [|p2 r2 l2 rs2 H2 F2]; subst.
    inversion F2; subst.
    cbn; apply H2; discriminate.
Defined.

(** C9 evaluated on the code. Only [doc.build] is inside the [try]: when
    the loop has built its story, [create_pdf] returns the document's
    bytes, or [None] when the build raises. The paragraphs are made
    before the [try], in the loop: when [Paragraph] refuses the markup of
    a block, its ValueError leaves [create_pdf] uncaught, as for the text
    [**<b>Jane**], whose header markup opens two bold tags and closes
    one. *)
Theorem paragraph_error_leaves_create_pdf
    (parses : str -> style -> bool)
    (build : list flowable -> result (list Byte.byte))
    (cover_letter_text : str) :
  exists styled,
    translate cover_letter_text = inr styled
    /\ (forallb (accepted parses) styled = true ->
        exists Story,
          build_story parses cover_letter_text = inr Story
          /\ create_pdf parses build cover_letter_text
             = inr (match build Story with
                    | inl _ => None
                    | inr pdf_value => Some pdf_value
                    end))
    /\ (forallb (accepted parses) styled = false ->
        create_pdf parses build cover_letter_text = inl ValueError).
Proof.
  eexists; split; [apply translate_map_kept|].
  unfold create_pdf.
  rewrite (build_story_translate parses cover_letter_text _
             (translate_map_kept cover_letter_text)).
  split.
  - intros ->; eexists; split; [reflexivity|].
    cbn [bind]; now destruct (build _).
  - now intros ->.
Qed.

Lemma paragraph_error_leaves_create_pdf_witness :
  translate $"**<b>Jane**" = inr [(Header, $"<b><b>Jane</b><br/>")]
  /\ create_pdf (fun text _ => negb (str_eqb text $"<b><b>Jane</b><br/>"))
       (fun _ => inr []) $"**<b>Jane**"
     = inl ValueError
  /\ create_pdf (fun _ _ => true) (fun _ => inl RendererError) $"**Jane**"
     = inr None.
Proof.
  split; [reflexivity|]; split.
  - destruct (paragraph_error_leaves_create_pdf
                (fun text _ => negb (str_eqb text $"<b><b>Jane</b><br/>"))
                (fun _ => inr []) $"**<b>Jane**")
      as (styled & E & _ & R).
    apply R.
    vm_compute in E; injection E as <-; reflexivity.
  - destruct (paragraph_error_leaves_create_pdf
                (fun _ _ => true) (fun _ => inl RendererError) $"**Jane**")
      as (styled & E & C & _).
    destruct C as (Story & _ & ->).
    + vm_compute in E; injection E as <-; reflexivity.
    + reflexivity.
Defined.

(** C4 evaluated on the code: the header of the specification's example
    comes out with two line breaks after the name, one written by the
    fast path and one for the newline that starts the remainder; the
    generic path, on the same text, writes one line break per newline. *)
Theorem jane_doe_header_markup :
  translate ($"**Jane Doe**" ++ nl ++ $"phone | email" ++ nl ++ $"url")
  = inr [(Header, $"<b>Jane Doe</b><br/><br/>phone | email<br/>url")]
  /\ block_html false
       ($"**Jane Doe**" ++ nl ++ $"phone | email" ++ nl ++ $"url")
     = inr $"<b>Jane Doe</b><br/>phone | email<br/>url".
Proof. split; reflexivity. Qed.

(** * No doubled bold markers *)

Section Doubled.

Lemma find_skip (c : char) (s pat : str) :
  startswith (c :: s) pat = false -> find s pat = None ->
  find (c :: s) pat = None.
Proof. intros E F; cbn [find]; now rewrite E, F. Qed.

Lemma find_None_startswith (s pat : str) :
  find s pat = None -> startswith s pat = false.
Proof.
  destruct s as [|c s]; cbn [find];
    destruct (startswith _ pat); [discriminate | reflexivity
                                 | discriminate | reflexivity].
Qed.

(** Freedom from a pattern passes to the pieces of a text. *)
Lemma free_app (a b pat : str) :
  find (a ++ b) pat = None -> find a pat = None /\ find b pat = None.
Proof.
  rewrite !find_None; intros H; split; intros l r E.
  - apply (H l (r ++ b)); rewrite E, <- !app_assoc; reflexivity.
  - apply (H (a ++ l) r); rewrite E, <- !app_assoc; reflexivity.
Qed.

Lemma free_firstn (n : nat) (s pat : str) :
  find s pat = None -> find (firstn n s) pat = None.
Proof.
  intros H; rewrite <- (firstn_skipn n s) in H; now apply free_app in H.
Qed.

Lemma free_skipn (n : nat) (s pat : str) :
  find s pat = None -> find (skipn n s) pat = None.
Proof.
  intros H; rewrite <- (firstn_skipn n s) in H; now apply free_app in H.
Qed.

Lemma free_longer (s pat more : str) :
  find s pat = None -> find s (pat ++ more) = None.
Proof.
  rewrite !find_None; intros H l r E.
  apply (H l (more ++ r)); rewrite E, <- !app_assoc; reflexivity.
Qed.

(** The parts of a split are pieces of the text. *)
Lemma split_free (s sep pat : str) (m : Z) :
  sep <> [] -> find s pat = None ->
  Forall (fun p => find p pat = None) (split s sep m).
Proof.
  intros Hsep; revert m; induction s as [s IH] using str_length_ind.
  intros m Hs; rewrite split_eq by assumption.
  destruct (Z.eqb m 0); [now repeat constructor|].
  destruct (find s sep) as [i|] eqn:F; [|now repeat constructor].
  constructor; [now apply free_firstn|].
  apply IH; [now apply find_Some_skip_length | now apply free_skipn].
Qed.

(** A tag cannot be completed across the end of a piece when what
    follows starts with a tag. *)
Lemma startswith_open_across (a t : str) :
  a <> [] -> tag_start t = true ->
  startswith (a ++ t) open_tag = true -> startswith a open_tag = true.
Proof.
  intros Ha Ht.
  destruct a as [|x [|y [|z a]]]; [congruence| | |];
    destruct t as [|c t]; cbn in *; try (apply N.eqb_eq in Ht; subst c);
    rewrite ?andb_false_r; auto.
Qed.

Lemma startswith_close_across (a t : str) :
  a <> [] -> tag_start t = true ->
  startswith (a ++ t) close_tag = true -> startswith a close_tag = true.
Proof.
  intros Ha Ht.
  destruct a as [|x [|y [|z [|w a]]]]; [congruence| | | |];
    destruct t as [|c t]; cbn in *; try (apply N.eqb_eq in Ht; subst c);
    rewrite ?andb_false_r; auto.
Qed.

(** In front of a text that starts with a tag, a piece free of [pat]
    brings no occurrence of a pattern that starts with [pat]. *)
Lemma free_prepend (pat more c t : str) :
  (forall a, a <> [] -> startswith (a ++ t) pat = true ->
             startswith a pat = true) ->
  find c pat = None -> find t (pat ++ more) = None ->
  find (c ++ t) (pat ++ more) = None.
Proof.
  intros Hacross Hc Ht; induction c as [|x c IH]; [exact Ht|].
  apply find_cons_None in Hc as [Hx Hc].
  change ((x :: c) ++ t) with (x :: (c ++ t)).
  apply find_skip; [|now apply IH].
  destruct (startswith (x :: c ++ t) (pat ++ more)) eqn:E; [|reflexivity].
  apply startswith_app in E as [r E].
  rewrite <- app_assoc in E.
  assert (S1 : startswith ((x :: c) ++ t) pat = true)
    by (apply startswith_app; now exists (more ++ r)).
  assert (N : x :: c <> []) by discriminate.
  specialize (Hacross (x :: c) N S1); congruence.
Qed.

Lemma prepend_open (more c t : str) :
  tag_start t = true ->
  find c open_tag = None -> find t (open_tag ++ more) = None ->
  find (c ++ t) (open_tag ++ more) = None.
Proof.
  intros Ht; apply free_prepend; intros a Ha.
  now apply startswith_open_across.
Qed.

Lemma prepend_close (more c t : str) :
  tag_start t = true ->
  find c close_tag = None -> find t (close_tag ++ more) = None ->
  find (c ++ t) (close_tag ++ more) = None.
Proof.
  intros Ht; apply free_prepend; intros a Ha.
  now apply startswith_close_across.
Qed.

(** Skipping the characters of a known prefix one by one. *)
Ltac skip_known :=
  repeat (apply find_skip; [reflexivity|]).

Lemma br_chars : br = [60; 98; 114; 47; 62]%N.
Proof. reflexivity. Qed.

Lemma open_tag_chars : open_tag = [60; 98; 62]%N.
Proof. reflexivity. Qed.

Lemma close_tag_chars : close_tag = [60; 47; 98; 62]%N.
Proof. reflexivity. Qed.

(** Turning newlines into line breaks brings no bold tag. *)
Lemma replace_nl_free_open (s : str) :
  find s open_tag = None -> find (replace s nl br) open_tag = None.
Proof.
  induction s as [s IH] using str_length_ind; intros Hs.
  rewrite replace_eq by discriminate.
  destruct (find s nl) as [i|] eqn:F; [|exact Hs].
  assert (N : nl <> []) by discriminate.
  specialize (IH (skipn (i + length nl) s)
                 (find_Some_skip_length _ _ _ N F)
                 (free_skipn _ _ _ Hs)).
  revert IH; generalize (replace (skipn (i + length nl) s) nl br).
  intros R HR; rewrite <- (app_nil_r open_tag).
  apply prepend_open; [reflexivity | now apply free_firstn |].
  rewrite app_nil_r, br_chars; cbn [app]; skip_known; exact HR.
Qed.

Lemma replace_nl_free_close (s : str) :
  find s close_tag = None -> find (replace s nl br) close_tag = None.
Proof.
  induction s as [s IH] using str_length_ind; intros Hs.
  rewrite replace_eq by discriminate.
  destruct (find s nl) as [i|] eqn:F; [|exact Hs].
  assert (N : nl <> []) by discriminate.
  specialize (IH (skipn (i + length nl) s)
                 (find_Some_skip_length _ _ _ N F)
                 (free_skipn _ _ _ Hs)).
  revert IH; generalize (replace (skipn (i + length nl) s) nl br).
  intros R HR; rewrite <- (app_nil_r close_tag).
  apply prepend_close; [reflexivity | now apply free_firstn |].
  rewrite app_nil_r, br_chars; cbn [app]; skip_known; exact HR.
Qed.

Lemma join_nil_concat (parts : list str) : join [] parts = concat parts.
Proof.
  induction parts as [|p ps IH]; [reflexivity|].
  destruct ps as [|q ps]; [simpl; now rewrite app_nil_r|].
  rewrite join_cons by discriminate; cbn [app concat]; now rewrite IH.
Qed.

Lemma joined_plain (c : str) (cs : list str) :
  joined false (c :: cs) = c ++ joined true cs.
Proof. reflexivity. Qed.

Lemma joined_bold (c : str) (cs : list str) :
  joined true (c :: cs)
  = 60%N :: 98%N :: 62%N
    :: (c ++ 60%N :: 47%N :: 98%N :: 62%N :: joined false cs).
Proof.
  unfold joined; cbn [alternate concat negb]; unfold bold.
  rewrite <- !app_assoc; reflexivity.
Qed.

Lemma joined_bold_tag_start (cs : list str) : tag_start (joined true cs) = true.
Proof. destruct cs; [reflexivity | now rewrite joined_bold]. Qed.

Lemma joined_plain_no_close_first (cs : list str) :
  Forall tag_free cs ->
  startswith (joined false cs) close_tag = false.
Proof.
  intros H; destruct H as [|c cs [Ho Hc] _]; [reflexivity|].
  rewrite joined_plain.
  pose proof (joined_bold_tag_start cs) as Ht.
  destruct c as [|x c].
  - destruct cs; [reflexivity|].
    rewrite joined_bold; reflexivity.
  - assert (N : x :: c <> []) by discriminate.
    apply find_None_startswith in Hc.
    destruct (startswith ((x :: c) ++ joined true cs) close_tag) eqn:E;
      [|reflexivity].
    apply startswith_close_across in E; auto; congruence.
Qed.

(** A chunk free of tags, wrapped in the bold pair, in front of a text
    without doubled tags that does not start with a closing tag. *)
Lemma wrapped_no_doubled (c rest : str) :
  tag_free c ->
  find rest (open_tag ++ open_tag) = None ->
  find rest (close_tag ++ close_tag) = None ->
  startswith rest close_tag = false ->
  find (60 :: 98 :: 62 :: (c ++ 60 :: 47 :: 98 :: 62 :: rest))%N
       (open_tag ++ open_tag) = None
  /\ find (60 :: 98 :: 62 :: (c ++ 60 :: 47 :: 98 :: 62 :: rest))%N
          (close_tag ++ close_tag) = None.
Proof.
  intros [Ho Hc] IHo IHc Fc; split.
  - apply find_skip.
    { change (startswith (c ++ 60 :: 47 :: 98 :: 62 :: rest)%N open_tag
              = false).
      destruct c as [|x c]; [reflexivity|].
      apply find_None_startswith in Ho.
      destruct (startswith ((x :: c) ++ 60 :: 47 :: 98 :: 62 :: rest)%N
                           open_tag) eqn:E; [|reflexivity].
      apply startswith_open_across in E;
        [congruence | discriminate | reflexivity]. }
    skip_known.
    apply prepend_open; [reflexivity | exact Ho |].
    skip_known; exact IHo.
  - skip_known.
    apply prepend_close; [reflexivity | exact Hc |].
    apply find_skip; [exact Fc|].
    skip_known; exact IHc.
Qed.

(** Between chunks free of tags, the tags the walk writes are never
    doubled. *)
Lemma joined_no_doubled (cs : list str) (in_bold : bool) :
  Forall tag_free cs ->
  find (joined in_bold cs) (open_tag ++ open_tag) = None
  /\ find (joined in_bold cs) (close_tag ++ close_tag) = None.
Proof.
  intros H; revert in_bold; induction H as [|c cs Hfree Hcs IH];
    intros b; [destruct b; split; reflexivity|].
  destruct b.
  - destruct (IH false) as [IHo IHc].
    rewrite joined_bold; apply wrapped_no_doubled; auto.
    now apply joined_plain_no_close_first.
  - destruct (IH true) as [IHo IHc]; destruct Hfree as [Ho Hc].
    rewrite joined_plain.
    pose proof (joined_bold_tag_start cs) as Ht; split.
    + now apply prepend_open.
    + now apply prepend_close.
Qed.

Lemma replace_absent (s old new : str) :
  old <> [] -> find s old = None -> replace s old new = s.
Proof. intros Hold F; rewrite replace_eq by assumption; now rewrite F. Qed.

Lemma split_tag_free (s sep : str) (m : Z) :
  sep <> [] -> tag_free s -> Forall tag_free (split s sep m).
Proof.
  intros Hsep [Ho Hc].
  pose proof (split_free s sep open_tag m Hsep Ho) as Fo.
  pose proof (split_free s sep close_tag m Hsep Hc) as Fc.
  rewrite Forall_forall in *; intros p Hp; split; auto.
Qed.

Lemma replace_nl_tag_free (s : str) :
  tag_free s -> tag_free (replace s nl br).
Proof.
  intros [Ho Hc]; split;
    [now apply replace_nl_free_open | now apply replace_nl_free_close].
Qed.

(** The generic conversion of a block without tags: the walk's output,
    which the two clean-up replacements leave as it is. *)
Lemma generic_html_joined (para_text : str) :
  tag_free para_text ->
  generic_html para_text
  = joined false (split (replace para_text nl br) $"**" (-1))
  /\ find (generic_html para_text) (open_tag ++ open_tag) = None
  /\ find (generic_html para_text) (close_tag ++ close_tag) = None.
Proof.
  intros Hfree; unfold generic_html.
  rewrite join_nil_concat, emphasis_loop_alternate.
  fold (joined false (split (replace para_text nl br) $"**" (-1))).
  destruct (joined_no_doubled
              (split (replace para_text nl br) $"**" (-1)) false)
    as [Ho Hc].
  { apply split_tag_free; [discriminate | now apply replace_nl_tag_free]. }
  change $"<b><b>" with (open_tag ++ open_tag).
  change $"</b></b>" with (close_tag ++ close_tag).
  rewrite (replace_absent _ (open_tag ++ open_tag)) by (discriminate || exact Ho).
  rewrite (replace_absent _ (close_tag ++ close_tag)) by (discriminate || exact Hc).
  auto.
Qed.

Lemma header_html_no_doubled (mid rest : str) :
  tag_free mid -> tag_free rest ->
  find (bold mid ++ br ++ replace rest nl br) (open_tag ++ open_tag) = None
  /\ find (bold mid ++ br ++ replace rest nl br) (close_tag ++ close_tag)
     = None.
Proof.
  intros Hmid Hrest; apply replace_nl_tag_free in Hrest as [Ro Rc].
  revert Ro Rc; generalize (replace rest nl br); intros R Ro Rc.
  replace (bold mid ++ br ++ R)
    with (60 :: 98 :: 62
          :: (mid ++ 60 :: 47 :: 98 :: 62 :: (60 :: 98 :: 114 :: 47 :: 62 :: R)))%N
    by (unfold bold; rewrite <- !app_assoc; reflexivity).
  apply wrapped_no_doubled; auto.
  - skip_known; now apply free_longer.
  - skip_known; now apply free_longer.
Qed.

End Doubled.

(** * The clean-up of line 157 *)

Section Across.

(** An occurrence of a pattern that keeps [x] and [y] apart starts, if it
    starts in a piece followed by [x], [y], within the piece and ends
    there. *)
Lemma apart_across (x y : char) (pat a t : str) :
  apart x y pat = true ->
  startswith (a ++ x :: y :: t) pat = true -> startswith a pat = true.
Proof.
  revert a; induction pat as [|c pat IH]; intros a HP H; [reflexivity|].
  cbn [apart] in HP; apply andb_prop in HP as [Hc HP].
  destruct a as [|a0 a]; cbn [app] in H.
  - exfalso; cbn [startswith] in H; apply andb_prop in H as [H1 H2].
    rewrite H1 in Hc; cbn [negb orb] in Hc.
    destruct pat as [|d pat]; [discriminate|].
    cbn [startswith] in H2; apply andb_prop in H2 as [H3 _].
    rewrite H3 in Hc; discriminate.
  - cbn [startswith] in *; apply andb_prop in H as [H1 H2].
    rewrite H1; cbn [andb]; now apply IH.
Qed.

Lemma apart_insert (x y : char) (pat pre t : str) :
  apart x y pat = true ->
  find pre pat = None -> find (y :: t) pat = None ->
  find (pre ++ x :: y :: t) pat = None.
Proof.
  intros HP Hpre Ht; induction pre as [|c pre IH]; cbn [app].
  - apply find_skip; [|exact Ht].
    destruct (startswith (x :: y :: t) pat) eqn:S; [|reflexivity].
    apply (apart_across x y pat [] t HP) in S.
    destruct pat; [discriminate Ht | discriminate S].
  - apply find_cons_None in Hpre as [S0 Hpre].
    apply find_skip; [|now apply IH].
    destruct (startswith (c :: pre ++ x :: y :: t) pat) eqn:S;
      [|reflexivity].
    apply (apart_across x y pat (c :: pre) t HP) in S; congruence.
Qed.

End Across.

(** Replacing leaves a text free of a pattern that cannot reach across
    the start of the new piece nor begin in its tail. *)
Section Preserved.

Variables (old tail pat : str) (x y : char).

Hypothesis old_not_empty : old <> [].

Hypothesis pat_apart : apart x y pat = true.

Hypothesis not_in_tail :
  forall t, find t pat = None -> find (y :: tail ++ t) pat = None.

Lemma replace_preserves (s : str) :
  find s pat = None -> find (replace s old (x :: y :: tail)) pat = None.
Proof.
  induction s as [s IH] using str_length_ind; intros F.
  rewrite replace_eq by assumption.
  destruct (find s old) as [i|] eqn:Fo; [|exact F].
  change ((x :: y :: tail) ++ ?r) with (x :: y :: tail ++ r).
  apply apart_insert; [assumption | now apply free_firstn|].
  apply not_in_tail, IH;
    [now apply find_Some_skip_length | now apply free_skipn].
Qed.

End Preserved.

(** One pass that replaces a doubled marker by a single one leaves no
    doubled marker when the text has no run of three. *)
Section Collapse.

Variable T : str.

Hypothesis T_tag : forall t, tag_start (T ++ t) = true.

Hypothesis T_not_empty : T <> [].

Hypothesis T_across :
  forall a t, a <> [] -> tag_start t = true ->
              startswith (a ++ t) T = true -> startswith a T = true.

Hypothesis T_wrap :
  forall t, startswith t T = false -> find t (T ++ T) = None ->
            find (T ++ t) (T ++ T) = None.

Lemma doubled_across (a t u : str) :
  a <> [] ->
  startswith (a ++ T ++ t) (T ++ T) = true ->
  startswith (a ++ T ++ u) (T ++ T) = true.
Proof.
  intros Ha H; apply startswith_app in H as [r E].
  assert (S1 : startswith (a ++ (T ++ t)) T = true).
  { apply startswith_app; exists (T ++ r); rewrite E, <- app_assoc.
    reflexivity. }
  apply T_across in S1; [|assumption | apply T_tag].
  apply startswith_app in S1 as [a' ->].
  rewrite <- !app_assoc in E; apply app_inv_head in E.
  destruct a' as [|c a'].
  - apply startswith_app; exists u; rewrite app_nil_r, <- app_assoc.
    reflexivity.
  - assert (S2 : startswith ((c :: a') ++ (T ++ t)) T = true)
      by (apply startswith_app; now exists r).
    apply T_across in S2; [|discriminate | apply T_tag].
    apply startswith_app in S2 as [a'' ->].
    apply startswith_app; exists (a'' ++ T ++ u).
    rewrite <- !app_assoc; reflexivity.
Qed.

Lemma collapse_front (pre rest t : str) :
  find (pre ++ (T ++ T) ++ rest) (T ++ T) = Some (length pre) ->
  find (T ++ t) (T ++ T) = None ->
  find (pre ++ T ++ t) (T ++ T) = None.
Proof.
  intros F W; induction pre as [|c pre IH]; cbn [app length] in *;
    [exact W|].
  cbn [find] in F.
  destruct (startswith (c :: pre ++ (T ++ T) ++ rest) (T ++ T)) eqn:S0;
    [discriminate|].
  destruct (find (pre ++ (T ++ T) ++ rest) (T ++ T)) as [n|] eqn:F';
    [|discriminate].
  injection F as ->.
  apply find_skip; [|now apply IH].
  destruct (startswith (c :: pre ++ T ++ t) (T ++ T)) eqn:S1; [|reflexivity].
  apply (doubled_across (c :: pre) t (T ++ rest)) in S1; [|discriminate].
  rewrite <- app_assoc in S0; cbn [app] in S1; congruence.
Qed.

Lemma replace_keeps_start (s : str) :
  startswith (replace s (T ++ T) T) T = true -> startswith s T = true.
Proof.
  assert (N2 : T ++ T <> [])
    by (intros E; now apply app_eq_nil in E as [E _]).
  rewrite replace_eq by assumption.
  destruct (find s (T ++ T)) as [i|] eqn:F; [|auto].
  intros H; pose proof (find_Some _ _ _ F) as E.
  destruct i as [|i].
  - apply startswith_app; exists (T ++ skipn (0 + length (T ++ T)) s).
    rewrite E at 1; cbn [firstn app]; now rewrite <- app_assoc.
  - assert (N : firstn (S i) s <> []).
    { destruct s; [|discriminate].
      cbn [find] in F; destruct (startswith [] (T ++ T)); discriminate. }
    apply T_across in H; [|exact N | apply T_tag].
    apply startswith_app in H as [r Hr].
    apply startswith_app; exists (r ++ skipn (S i) s).
    rewrite <- (firstn_skipn (S i) s) at 1.
    now rewrite Hr, <- app_assoc.
Qed.

Lemma replace_collapses (s : str) :
  find s (T ++ T ++ T) = None -> find (replace s (T ++ T) T) (T ++ T) = None.
Proof.
  assert (N2 : T ++ T <> [])
    by (intros E; now apply app_eq_nil in E as [E _]).
  induction s as [s IH] using str_length_ind; intros F3.
  rewrite replace_eq by assumption.
  destruct (find s (T ++ T)) as [i|] eqn:F; [|exact F].
  pose proof (find_Some _ _ _ F) as E.
  pose proof (find_Some_length _ _ _ F) as L.
  assert (Fr : find (replace (skipn (i + length (T ++ T)) s) (T ++ T) T)
                    (T ++ T) = None)
    by (apply IH; [now apply find_Some_skip_length | now apply free_skipn]).
  assert (Sr : startswith (replace (skipn (i + length (T ++ T)) s) (T ++ T) T)
                 T = false).
  { destruct (startswith _ T) eqn:S; [|reflexivity].
    apply replace_keeps_start in S; apply startswith_app in S as [r Er].
    exfalso; rewrite find_None in F3; apply (F3 (firstn i s) r).
    rewrite E at 1; rewrite Er, <- !app_assoc; reflexivity. }
  apply (collapse_front (firstn i s) (skipn (i + length (T ++ T)) s));
    [|now apply T_wrap].
  rewrite <- E, F; f_equal; rewrite length_firstn; lia.
Qed.

End Collapse.

Section CleanUp.

Lemma open_tag_wrap (t : str) :
  startswith t open_tag = false ->
  find t (open_tag ++ open_tag) = None ->
  find (open_tag ++ t) (open_tag ++ open_tag) = None.
Proof.
  intros S F; change (open_tag ++ t) with (60 :: 98 :: 62 :: t)%N.
  apply find_skip; [exact S|].
  repeat (apply find_skip; [reflexivity|]); exact F.
Qed.

Lemma close_tag_wrap (t : str) :
  startswith t close_tag = false ->
  find t (close_tag ++ close_tag) = None ->
  find (close_tag ++ t) (close_tag ++ close_tag) = None.
Proof.
  intros S F; change (close_tag ++ t) with (60 :: 47 :: 98 :: 62 :: t)%N.
  apply find_skip; [exact S|].
  repeat (apply find_skip; [reflexivity|]); exact F.
Qed.

Lemma open_collapses (s : str) :
  find s (open_tag ++ open_tag ++ open_tag) = None ->
  find (replace s $"<b><b>" $"<b>") (open_tag ++ open_tag) = None.
Proof.
  apply (replace_collapses open_tag);
    [reflexivity | discriminate | apply startswith_open_across
    | apply open_tag_wrap].
Qed.

Lemma close_collapses (s : str) :
  find s (close_tag ++ close_tag ++ close_tag) = None ->
  find (replace s $"</b></b>" $"</b>") (close_tag ++ close_tag) = None.
Proof.
  apply (replace_collapses close_tag);
    [reflexivity | discriminate | apply startswith_close_across
    | apply close_tag_wrap].
Qed.

Lemma open_pass_keeps_close (s : str) :
  find s (close_tag ++ close_tag ++ close_tag) = None ->
  find (replace s $"<b><b>" $"<b>") (close_tag ++ close_tag ++ close_tag)
  = None.
Proof.
  apply (replace_preserves $"<b><b>" [62%N]
           (close_tag ++ close_tag ++ close_tag) 60%N 98%N);
    [discriminate | reflexivity|].
  intros t F; cbn [app].
  repeat (apply find_skip; [reflexivity|]); exact F.
Qed.

Lemma close_pass_keeps_open (s : str) :
  find s (open_tag ++ open_tag) = None ->
  find (replace s $"</b></b>" $"</b>") (open_tag ++ open_tag) = None.
Proof.
  apply (replace_preserves $"</b></b>" [98; 62]%N
           (open_tag ++ open_tag) 60%N 47%N);
    [discriminate | reflexivity|].
  intros t F; cbn [app].
  repeat (apply find_skip; [reflexivity|]); exact F.
Qed.

Lemma generic_html_collapsed (para_text : str) :
  find (conversion_output para_text) (open_tag ++ open_tag ++ open_tag)
  = None ->
  find (conversion_output para_text) (close_tag ++ close_tag ++ close_tag)
  = None ->
  find (generic_html para_text) (open_tag ++ open_tag) = None
  /\ find (generic_html para_text) (close_tag ++ close_tag) = None.
Proof.
  intros Ho Hc; unfold generic_html; fold (conversion_output para_text).
  split.
  - now apply close_pass_keeps_open, open_collapses.
  - now apply close_collapses, open_pass_keeps_close.
Qed.

End CleanUp.

(** C7, as stated, fails: the clean-up is one pass from left to right. A
    text whose conversion writes three opening markers in a row keeps two
    of them, and the header fast path applies no clean-up at all. *)
Lemma markers_collapsed_fails :
  ~ markers_collapsed false $"<b>**<b>x**"
  /\ ~ markers_collapsed true $"**<b>Jane**".
Proof.
  split; intros (html_para & E & Ho & _);
    vm_compute in E; injection E as <-; vm_compute in Ho; discriminate.
Qed.

(** C7, amended. On the generic path, taken by every Body block and by a
    header block whose bounded split does not give three parts: when the
    joined output of the conversion holds no three opening markers in a
    row and no three closing markers in a row, the markup holds no two
    opening markers in a row and no two closing markers in a row, every
    doubled marker having been replaced by a single one. *)
Theorem doubled_markers_collapse (para_text : str) :
  find (conversion_output para_text) (open_tag ++ open_tag ++ open_tag)
  = None ->
  find (conversion_output para_text) (close_tag ++ close_tag ++ close_tag)
  = None ->
  exists html_para,
    block_html false para_text = inr html_para
    /\ (length (split para_text $"**" 2) <> 3 ->
        block_html true para_text = inr html_para)
    /\ find html_para (open_tag ++ open_tag) = None
    /\ find html_para (close_tag ++ close_tag) = None.
Proof.
  intros Ho Hc; exists (generic_html para_text).
  split; [reflexivity|]; split; [apply block_html_not_three|].
  now apply generic_html_collapsed.
Qed.

Lemma doubled_markers_collapse_witness :
  conversion_output $"**<b>x**" = $"<b><b>x</b>"
  /\ block_html false $"**<b>x**" = inr $"<b>x</b>"
  /\ block_html false $"x****y" = inr $"x<b></b>y"
  /\ (exists html_para,
        block_html false $"**<b>x**" = inr html_para
        /\ (length (split $"**<b>x**" $"**" 2) <> 3 ->
            block_html true $"**<b>x**" = inr html_para)
        /\ find html_para (open_tag ++ open_tag) = None
        /\ find html_para (close_tag ++ close_tag) = None)
  /\ (exists html_para,
        block_html false $"x****y" = inr html_para
        /\ (length (split $"x****y" $"**" 2) <> 3 ->
            block_html true $"x****y" = inr html_para)
        /\ find html_para (open_tag ++ open_tag) = None
        /\ find html_para (close_tag ++ close_tag) = None).
Proof.
  repeat split; try reflexivity.
  - apply (doubled_markers_collapse $"**<b>x**"); reflexivity.
  - apply (doubled_markers_collapse $"x****y"); reflexivity.
Defined.

(** * Further facts about the built-ins *)

Section MoreBuiltins.

Lemma split_not_nil (s sep : str) (m : Z) : split s sep m <> [].
Proof.
  unfold split; simpl; destruct (Z.eqb m 0); [discriminate|].
  destruct (find s sep); discriminate.
Qed.

Lemma join_split_id (s sep : str) (m : Z) :
  sep <> [] -> join sep (split s sep m) = s.
Proof.
  intros Hsep; revert m; induction s as [s IH] using str_length_ind.
  intros m; rewrite split_eq by assumption.
  destruct (Z.eqb m 0); [reflexivity|].
  destruct (find s sep) as [i|] eqn:F; [|reflexivity].
  rewrite join_cons by apply split_not_nil.
  rewrite IH by now apply find_Some_skip_length.
  symmetry; now apply find_Some.
Qed.

(** [find] answers with the first occurrence. *)
Lemma find_Some_minimal (s sub l r : str) (i : nat) :
  find s sub = Some i -> s = l ++ sub ++ r -> i <= length l.
Proof.
  revert i l; induction s as [|x s IH]; intros i l F E.
  - cbn [find] in F; destruct (startswith [] sub); [|discriminate].
    injection F as <-; lia.
  - cbn [find] in F.
    destruct (startswith (x :: s) sub) eqn:S; [injection F as <-; lia|].
    destruct (find s sub) as [j|] eqn:G; [|discriminate].
    injection F as <-.
    destruct l as [|y l].
    + simpl in E; rewrite E, startswith_self_app in S; discriminate.
    + injection E as -> E; specialize (IH j l eq_refl E); simpl; lia.
Qed.

Lemma find_Some_before_free (s sub : str) (i : nat) :
  sub <> [] -> find s sub = Some i -> find (firstn i s) sub = None.
Proof.
  intros Hsub F; apply find_None; intros l r E.
  pose proof (find_Some_length _ _ _ F) as Hlen.
  assert (E' : s = l ++ sub ++ (r ++ skipn i s)).
  { rewrite <- (firstn_skipn i s) at 1; rewrite E, <- !app_assoc.
    reflexivity. }
  pose proof (find_Some_minimal _ _ _ _ _ F E') as Hmin.
  apply (f_equal (@length _)) in E.
  rewrite length_firstn, !length_app in E.
  destruct sub; [congruence | simpl in *; lia].
Qed.

(** Without a bound, no part of a split holds the separator. *)
Lemma split_parts_free (s sep : str) (m : Z) :
  sep <> [] -> (m < 0)%Z ->
  Forall (fun p => find p sep = None) (split s sep m).
Proof.
  intros Hsep; revert m; induction s as [s IH] using str_length_ind.
  intros m Hm; rewrite split_eq by assumption.
  destruct (Z.eqb_spec m 0); [lia|].
  destruct (find s sep) as [i|] eqn:F; [|now repeat constructor].
  constructor; [now apply find_Some_before_free|].
  apply IH; [now apply find_Some_skip_length | lia].
Qed.

(** Occurrences of one character. *)
Lemma find_char (s : str) (c : char) :
  find s [c] = None <-> forallb (fun x => negb (N.eqb x c)) s = true.
Proof.
  induction s as [|x s IH]; [split; reflexivity|].
  cbn [find startswith forallb]; rewrite andb_true_r.
  destruct (N.eqb x c); cbn [negb andb]; [split; discriminate|].
  destruct (find s [c]); cbn [option_map].
  - split; [discriminate|]; intros H; now apply IH in H.
  - split; [intros _; now apply IH | reflexivity].
Qed.

(** Replacing one character is a character-wise substitution. *)
Lemma replace_char (s new : str) (c : char) :
  replace s [c] new
  = flat_map (fun x => if N.eqb x c then new else [x]) s.
Proof.
  induction s as [s IH] using str_length_ind.
  rewrite replace_eq by discriminate.
  destruct (find s [c]) as [i|] eqn:F.
  - assert (N : [c] <> []) by discriminate.
    rewrite (IH _ (find_Some_skip_length _ _ _ N F)).
    pose proof (find_Some_before_free _ _ _ N F) as Hfree.
    pose proof (find_Some _ _ _ F) as E.
    rewrite E at 3; rewrite !flat_map_app; f_equal.
    + apply find_char in Hfree; clear -Hfree.
      induction (firstn i s) as [|x l IHl]; [reflexivity|].
      cbn [forallb] in Hfree; apply andb_prop in Hfree as [Hx Hl].
      cbn [flat_map]; apply negb_true_iff in Hx; rewrite Hx.
      cbn [app]; f_equal; now apply IHl.
    + cbn [flat_map app]; rewrite N.eqb_refl, app_nil_r; reflexivity.
  - apply find_char in F; clear -F.
    induction s as [|x l IHl]; [reflexivity|].
    cbn [forallb] in F; apply andb_prop in F as [Hx Hl].
    cbn [flat_map]; apply negb_true_iff in Hx; rewrite Hx.
    cbn [app]; f_equal; now apply IHl.
Qed.

Lemma replace_char_app (a b new : str) (c : char) :
  replace (a ++ b) [c] new = replace a [c] new ++ replace b [c] new.
Proof. rewrite !replace_char; apply flat_map_app. Qed.

(** What holds of every character of the text and of the new piece
    holds of every character of the result. *)
Lemma replace_forallb (f : char -> bool) (s old new : str) :
  old <> [] -> forallb f s = true -> forallb f new = true ->
  forallb f (replace s old new) = true.
Proof.
  intros Hold Hs Hnew; induction s as [s IH] using str_length_ind.
  rewrite replace_eq by assumption.
  destruct (find s old) as [i|] eqn:F; [|exact Hs].
  rewrite !forallb_app, Hnew, forallb_firstn by exact Hs.
  apply IH; [now apply find_Some_skip_length | now apply forallb_skipn].
Qed.

End MoreBuiltins.

(** X1. The loop asks [Paragraph] for the markup of every part of the
    split on blank lines that is not white space only, in the order of
    the text. When every markup is taken, the story holds for each of
    these parts a paragraph with the part's markup and role followed by
    one spacer, of height [0.25 * inch] after the Header and
    [0.15 * inch] after a Body paragraph, and nothing else; when one is
    refused, ValueError leaves the loop. The styled blocks are the
    paragraphs asked for. *)
Theorem story_layout (parses : str -> style -> bool)
    (cover_letter_text : str) :
  let paragraphs := split cover_letter_text blank_line (-1) in
  let kept := filter (fun p => negb (is_blank p)) paragraphs in
  build_story parses cover_letter_text
  = (if forallb (takes parses paragraphs) kept
     then inr (flat_map (flowables_of paragraphs) kept)
     else inl ValueError)
  /\ translate cover_letter_text
     = inr (map (fun p => (role_of paragraphs p,
                           markup_of (role_of paragraphs p) p)) kept).
Proof.
  split; [apply build_story_flowables | apply translate_map_kept].
Qed.

(** X2. The translator emits as many Header blocks as there are kept
    parts whose text equals the text of the first part of the split: one
    for the first part when it is kept, and one more for every later
    part that repeats its text. *)
Theorem header_count (draft : str) :
  let paragraphs := split draft blank_line (-1) in
  exists styled,
    translate draft = inr styled
    /\ length (filter (fun b => match fst b with
                                | Header => true
                                | Body_Justify => false
                                end) styled)
       = length (filter (str_eqb (hd [] paragraphs))
                        (filter (fun p => negb (is_blank p)) paragraphs)).
Proof.
  intros paragraphs; eexists; split; [apply translate_map_kept|].
  fold paragraphs.
  induction (filter (fun p => negb (is_blank p)) paragraphs) as [|p l IH];
    [reflexivity|].
  cbn [map filter fst].
  assert (R : match role_of paragraphs p with
              | Header => true | Body_Justify => false end
              = str_eqb (hd [] paragraphs) p).
  { unfold role_of; pose proof (split_not_nil draft blank_line (-1)) as N.
    fold paragraphs in N; destruct paragraphs as [|p0 ps]; [congruence|].
    cbn [hd_error hd]; now destruct (str_eqb p0 p). }
  rewrite R; destruct (str_eqb (hd [] paragraphs) p); cbn [length];
    now rewrite IH.
Qed.

(** X3. The three splits of [create_pdf] lose nothing but the separators:
    the parts of the text cut at the blank lines, the chunks of a block
    cut at the delimiter, and the parts of the bounded split of a header,
    joined again by what they were cut at, give the text back. *)
Theorem splits_join_back (text : str) :
  join blank_line (split text blank_line (-1)) = text
  /\ join $"**" (split text $"**" (-1)) = text
  /\ join $"**" (split text $"**" 2) = text.
Proof. repeat split; apply join_split_id; discriminate. Qed.

(** X4. No part of the text cut at the blank lines holds a blank line, no
    chunk of a block holds the delimiter, and when the bounded split of a
    header has three parts, the first two hold no delimiter; the third
    may. *)
Theorem parts_hold_no_separator (text : str) :
  Forall (fun p => find p blank_line = None) (split text blank_line (-1))
  /\ Forall (fun c => find c $"**" = None) (split text $"**" (-1))
  /\ (forall lead name rest,
        split text $"**" 2 = [lead; name; rest] ->
        find lead $"**" = None /\ find name $"**" = None).
Proof.
  split; [apply split_parts_free; [discriminate | lia]|].
  split; [apply split_parts_free; [discriminate | lia]|].
  intros lead name rest.
  assert (N : $"**" <> []) by discriminate.
  rewrite split_eq by exact N; cbn [Z.eqb].
  destruct (find text $"**") as [i|] eqn:F; [|discriminate].
  rewrite split_eq by exact N; cbn [Z.eqb Z.sub Z.add Z.pos_sub Z.opp
                                      Pos.pred_double Z.succ_double
                                      Z.pred_double Z.double].
  destruct (find (skipn (i + length $"**") text) $"**") as [j|] eqn:G;
    [|discriminate].
  intros [= <- <- _]; split; now apply find_Some_before_free.
Qed.

Lemma parts_hold_no_separator_witness :
  find $"Dr. " $"**" = None /\ find $"Jane" $"**" = None.
Proof.
  apply (proj2 (proj2 (parts_hold_no_separator $"Dr. **Jane**x**y"))
           $"Dr. " $"Jane" $"x**y").
  reflexivity.
Defined.

(** * What the generic conversion leaves in the markup *)

Section Leftovers.

Ltac skip_chars :=
  repeat (apply find_skip; [reflexivity|]).

Lemma startswith_star_across (a t : str) :
  a <> [] -> tag_start t = true ->
  startswith (a ++ t) $"**" = true -> startswith a $"**" = true.
Proof.
  intros Ha Ht.
  destruct a as [|x [|y a]]; [congruence| |];
    destruct t as [|c t]; cbn in *; try (apply N.eqb_eq in Ht; subst c);
    rewrite ?andb_false_r; auto.
Qed.

Lemma prepend_star (c t : str) :
  tag_start t = true ->
  find c $"**" = None -> find t $"**" = None ->
  find (c ++ t) $"**" = None.
Proof.
  intros Ht Hc Hf.
  apply (free_prepend $"**" [] c t); auto.
  intros a Ha; now apply startswith_star_across.
Qed.

Lemma joined_no_star (cs : list str) (in_bold : bool) :
  Forall (fun c => find c $"**" = None) cs ->
  find (joined in_bold cs) $"**" = None.
Proof.
  intros H; revert in_bold; induction H as [|c cs Hc Hcs IH]; intros b;
    [now destruct b|].
  destruct b.
  - rewrite joined_bold; skip_chars.
    apply prepend_star; [reflexivity | exact Hc |].
    skip_chars; apply IH.
  - rewrite joined_plain; apply prepend_star;
      [apply joined_bold_tag_start | exact Hc | apply IH].
Qed.

(** Putting a tag in the place of a piece brings no delimiter. *)
Lemma replace_by_tag_no_star (s old new : str) :
  old <> [] -> tag_start new = true -> new <> [] ->
  (forall r, find r $"**" = None -> find (new ++ r) $"**" = None) ->
  find s $"**" = None -> find (replace s old new) $"**" = None.
Proof.
  intros Hold Ht Hne Hnew; induction s as [s IH] using str_length_ind.
  intros Hs; rewrite replace_eq by assumption.
  destruct (find s old) as [i|] eqn:F; [|exact Hs].
  apply prepend_star.
  - destruct new; [congruence | exact Ht].
  - now apply free_firstn.
  - apply Hnew, IH; [now apply find_Some_skip_length | now apply free_skipn].
Qed.

Lemma generic_html_no_star (para_text : str) :
  find (generic_html para_text) $"**" = None.
Proof.
  unfold generic_html.
  rewrite join_nil_concat, emphasis_loop_alternate.
  fold (joined false (split (replace para_text nl $"<br/>") $"**" (-1))).
  apply replace_by_tag_no_star;
    [discriminate | reflexivity | discriminate
    | intros r Hr; change $"</b>" with [60; 47; 98; 62]%N; cbn [app];
      skip_chars; exact Hr |].
  apply replace_by_tag_no_star;
    [discriminate | reflexivity | discriminate
    | intros r Hr; change $"<b>" with [60; 98; 62]%N; cbn [app];
      skip_chars; exact Hr |].
  apply joined_no_star, split_parts_free; [discriminate | lia].
Qed.

Lemma forallb_flat_map (f : char -> bool) (g : char -> str) (s : str) :
  (forall x, In x s -> forallb f (g x) = true) ->
  forallb f (flat_map g s) = true.
Proof.
  induction s as [|x s IH]; intros H; [reflexivity|].
  cbn [flat_map]; rewrite forallb_app, H by now left.
  apply IH; intros y Hy; apply H; now right.
Qed.

Lemma replace_nl_no_nl (s : str) : forallb not_nl (replace s nl br) = true.
Proof.
  unfold nl; rewrite replace_char; apply forallb_flat_map; intros x _.
  destruct (N.eqb x 10) eqn:E; [reflexivity|].
  cbn [forallb]; unfold not_nl; now rewrite E.
Qed.

Lemma joined_forallb (f : char -> bool) (cs : list str) (in_bold : bool) :
  forallb f open_tag = true -> forallb f close_tag = true ->
  Forall (fun c => forallb f c = true) cs ->
  forallb f (joined in_bold cs) = true.
Proof.
  intros Ho Hc H; revert in_bold; induction H as [|c cs Hx Hcs IH];
    intros b; [reflexivity|].
  unfold joined; cbn [alternate concat]; fold (joined (negb b) cs).
  rewrite forallb_app, IH, andb_true_r.
  destruct b; [|exact Hx].
  unfold bold; fold open_tag close_tag.
  now rewrite !forallb_app, Ho, Hc, Hx.
Qed.

Lemma generic_html_no_nl (para_text : str) :
  forallb not_nl (generic_html para_text) = true.
Proof.
  unfold generic_html.
  rewrite join_nil_concat, emphasis_loop_alternate.
  fold (joined false (split (replace para_text nl $"<br/>") $"**" (-1))).
  apply replace_forallb; [discriminate | | reflexivity].
  apply replace_forallb; [discriminate | | reflexivity].
  apply joined_forallb; [reflexivity | reflexivity |].
  apply split_forallb; [discriminate | apply replace_nl_no_nl].
Qed.

(** Line breaks for newlines bring no delimiter. *)
Lemma replace_nl_no_star (s : str) :
  find s $"**" = None -> find (replace s nl br) $"**" = None.
Proof.
  unfold nl; rewrite replace_char.
  induction s as [|x s IH]; [reflexivity|]; intros H.
  apply find_cons_None in H as [Hx Hs]; specialize (IH Hs).
  cbn [flat_map]; destruct (N.eqb x 10) eqn:Ex.
  - rewrite br_chars; cbn [app]; skip_chars; exact IH.
  - cbn [app]; apply find_skip; [|exact IH].
    destruct s as [|y s]; [cbn in *; now rewrite andb_false_r|].
    cbn [flat_map]; destruct (N.eqb y 10) eqn:Ey.
    + apply N.eqb_eq in Ey; subst y; rewrite br_chars.
      cbn; now rewrite andb_false_r.
    + cbn in *; rewrite andb_true_r in *; exact Hx.
Qed.

End Leftovers.

Section HeaderLeftovers.

Ltac skip_chars :=
  repeat (apply find_skip; [reflexivity|]).

Lemma replace_nl_keeps_star (s : str) :
  find (replace s nl br) $"**" = None -> find s $"**" = None.
Proof.
  rewrite !find_None; intros H l r E; subst s.
  apply (H (replace l nl br) (replace r nl br)).
  unfold nl; now rewrite !replace_char_app, (replace_char $"**").
Qed.

Lemma header_fast_path_star (name rest : str) :
  find name $"**" = None ->
  find (bold name ++ br ++ replace rest nl br) $"**"
  = None <-> find rest $"**" = None.
Proof.
  intros Hname; split.
  - intros H; apply replace_nl_keeps_star.
    apply free_app in H as [_ H]; now apply free_app in H as [_ H].
  - intros H; apply replace_nl_no_star in H.
    revert H; generalize (replace rest nl br); intros R H.
    replace (bold name ++ br ++ R)
      with (60 :: 98 :: 62
            :: (name ++ 60 :: 47 :: 98 :: 62
                        :: (60 :: 98 :: 114 :: 47 :: 62 :: R)))%N
      by (unfold bold; rewrite <- !app_assoc; reflexivity).
    skip_chars; apply prepend_star; [reflexivity | exact Hname |].
    skip_chars; exact H.
Qed.

End HeaderLeftovers.

(** X5. In every translation, the markup of a Body block holds no
    delimiter and no newline: every pair of stars at which the block was
    cut is gone, every newline has become a line break, and neither the
    tags nor the line breaks bring either back. *)
Theorem body_blocks_clean (draft : str) (styled : list (style * str))
    (text : str) :
  translate draft = inr styled ->
  In (Body_Justify, text) styled ->
  find text $"**" = None /\ forallb not_nl text = true.
Proof.
  rewrite translate_map_kept; intros [= <-] Hin.
  apply in_map_iff in Hin as (p & E & _).
  destruct (role_of (split draft blank_line (-1)) p); [discriminate|].
  injection E as <-; cbn [markup_of].
  split; [apply generic_html_no_star | apply generic_html_no_nl].
Qed.

Lemma body_blocks_clean_witness :
  find $"a<b>b</b><br/>c" $"**" = None
  /\ forallb not_nl $"a<b>b</b><br/>c" = true.
Proof.
  apply (body_blocks_clean
           ($"Hi" ++ nl ++ nl ++ $"a**b**" ++ nl ++ $"c")
           [(Header, $"Hi"); (Body_Justify, $"a<b>b</b><br/>c")]).
  - reflexivity.
  - right; left; reflexivity.
Defined.

(** X6. On the header fast path only the remainder after the second
    delimiter is converted, and only its newlines: the markup holds a
    newline exactly when the name between the first two delimiters holds
    one, and it holds a delimiter exactly when the remainder holds
    one. *)
Theorem header_fast_path_leftovers (para_text lead name rest : str) :
  split para_text $"**" 2 = [lead; name; rest] ->
  exists html_para,
    block_html true para_text = inr html_para
    /\ forallb not_nl html_para = forallb not_nl name
    /\ (find html_para $"**" = None <-> find rest $"**" = None).
Proof.
  intros S; eexists; split; [eapply block_html_three; exact S|]; split.
  - unfold bold; rewrite !forallb_app, replace_nl_no_nl.
    cbn; now rewrite !andb_true_r.
  - apply header_fast_path_star.
    assert (N : $"**" <> []) by discriminate.
    revert S; rewrite split_eq by exact N; cbn [Z.eqb].
    destruct (find para_text $"**") as [i|] eqn:F; [|discriminate].
    rewrite split_eq by exact N; cbn [Z.eqb Z.sub Z.add Z.pos_sub Z.opp
                                        Pos.pred_double Z.succ_double
                                        Z.pred_double Z.double].
    destruct (find (skipn (i + length $"**") para_text) $"**") as [j|] eqn:G;
      [|discriminate].
    intros [= _ <- _]; now apply find_Some_before_free.
Qed.

Lemma header_fast_path_leftovers_witness :
  exists html_para,
    block_html true ($"**Jane" ++ nl ++ $"Doe**x**y**") = inr html_para
    /\ forallb not_nl html_para = forallb not_nl ($"Jane" ++ nl ++ $"Doe")
    /\ (find html_para $"**" = None <-> find $"x**y**" $"**" = None).
Proof.
  apply (header_fast_path_leftovers
           ($"**Jane" ++ nl ++ $"Doe**x**y**")
           $"" ($"Jane" ++ nl ++ $"Doe") $"x**y**").
  reflexivity.
Defined.

(** X7. A block without delimiter and without bold tag of its own goes
    through the generic conversion unchanged but for its newlines, each
    of which becomes a line break. *)
Theorem plain_block_markup (para_text : str) :
  find para_text $"**" = None ->
  find para_text open_tag = None ->
  find para_text close_tag = None ->
  generic_html para_text
  = flat_map (fun c => if N.eqb c 10 then br else [c]) para_text.
Proof.
  intros Hstar Ho Hc; unfold generic_html; fold br.
  pose proof (replace_nl_no_star _ Hstar) as Hs.
  pose proof (free_longer _ _ open_tag (replace_nl_free_open _ Ho)) as Hoo.
  pose proof (free_longer _ _ close_tag (replace_nl_free_close _ Hc)) as Hcc.
  replace (flat_map (fun c => if N.eqb c 10 then br else [c]) para_text)
    with (replace para_text nl br)
    by (unfold nl; apply replace_char).
  revert Hs Hoo Hcc; generalize (replace para_text nl br); intros h Hs Hoo Hcc.
  rewrite split_eq by discriminate; cbn [Z.eqb]; rewrite Hs.
  unfold emphasis_loop; cbn [fold_left emphasis_step negb app fst join].
  change $"<b><b>" with (open_tag ++ open_tag).
  change $"</b></b>" with (close_tag ++ close_tag).
  rewrite (replace_absent h (open_tag ++ open_tag))
    by (discriminate || exact Hoo).
  apply replace_absent; [discriminate | exact Hcc].
Qed.

Lemma plain_block_markup_witness :
  generic_html ($"Dear team," ++ nl ++ $"hello")
  = flat_map (fun c => if N.eqb c 10 then br else [c])
             ($"Dear team," ++ nl ++ $"hello").
Proof. apply plain_block_markup; reflexivity. Defined.

(** * Segments joined by the delimiter *)

Section Segments.

Lemma find_clean_None (a sep' : str) (c0 : char) :
  forallb (fun x => negb (N.eqb x c0)) a = true ->
  find a (c0 :: sep') = None.
Proof.
  induction a as [|x a IH]; [reflexivity|].
  cbn [forallb]; intros H; apply andb_prop in H as [Hx Ha].
  apply find_skip; [|now apply IH].
  cbn [startswith]; apply negb_true_iff in Hx; now rewrite Hx.
Qed.

Lemma find_clean_prefix (a r sep' : str) (c0 : char) :
  forallb (fun x => negb (N.eqb x c0)) a = true ->
  find (a ++ (c0 :: sep') ++ r) (c0 :: sep') = Some (length a).
Proof.
  induction a as [|x a IH].
  - intros _; cbn [app length find].
    change (c0 :: sep' ++ r) with ((c0 :: sep') ++ r).
    now rewrite startswith_self_app.
  - cbn [forallb]; intros H; apply andb_prop in H as [Hx Ha].
    change ((x :: a) ++ (c0 :: sep') ++ r)
      with (x :: (a ++ (c0 :: sep') ++ r)).
    cbn [find startswith]; apply negb_true_iff in Hx; rewrite Hx.
    cbn [andb]; now rewrite (IH Ha).
Qed.

Lemma skipn_past (a sep r : str) :
  skipn (length a + length sep) (a ++ sep ++ r) = r.
Proof.
  induction a as [|x a IH]; [|exact IH].
  induction sep as [|y sep IHs]; [reflexivity | exact IHs].
Qed.

(** Segments that do not hold the first character of the separator,
    joined by it, split back into themselves. *)
Lemma split_join_clean (cs : list str) (sep' : str) (c0 : char) (m : Z) :
  cs <> [] -> (m < 0)%Z ->
  Forall (fun c => forallb (fun x => negb (N.eqb x c0)) c = true) cs ->
  split (join (c0 :: sep') cs) (c0 :: sep') m = cs.
Proof.
  intros Hne Hm H; revert m Hm; induction H as [|b bs Hb Hbs IH];
    [exfalso; now apply Hne|]; intros m Hm.
  destruct bs as [|b' bs].
  - cbn [join]; rewrite split_eq by discriminate.
    destruct (Z.eqb_spec m 0); [lia|].
    now rewrite find_clean_None.
  - rewrite join_cons by discriminate.
    rewrite split_eq by discriminate.
    destruct (Z.eqb_spec m 0); [lia|].
    rewrite find_clean_prefix by assumption.
    rewrite firstn_app, Nat.sub_diag, firstn_all, app_nil_r; f_equal.
    rewrite skipn_past; apply IH; [discriminate | lia].
Qed.

Lemma replace_nl_join (cs : list str) :
  replace (join $"**" cs) nl br
  = join $"**" (map (fun c => replace c nl br) cs).
Proof.
  induction cs as [|c cs IH]; [reflexivity|].
  destruct cs as [|c' cs]; [reflexivity|].
  rewrite join_cons by discriminate.
  cbn [map]; cbn [map] in IH.
  rewrite (join_cons _ (replace c nl br)) by discriminate.
  unfold nl in *.
  rewrite (replace_char_app c), (replace_char_app $"**" (join $"**" (c' :: cs))).
  apply f_equal2; [reflexivity|].
  apply f_equal2; [now rewrite replace_char | exact IH].
Qed.

Lemma parity_rule_alternate (cs : list str) :
  parity_rule cs = alternate false cs.
Proof. symmetry; now apply alternate_seq. Qed.

End Segments.

(** X8. A block written as segments joined by the delimiter, the
    segments holding no star and no bold tag of their own, comes out of
    the generic conversion as these segments in order, the first, third,
    ... literal and the second, fourth, ... wrapped in the bold pair,
    each with its newlines turned into line breaks; nothing is added and
    nothing is lost. *)
Theorem generic_html_of_segments (segments : list str) :
  segments <> [] ->
  Forall (fun c => forallb not_star c = true) segments ->
  Forall tag_free segments ->
  generic_html (join $"**" segments)
  = concat (parity_rule (map (fun c => replace c nl br) segments)).
Proof.
  intros Hne Hstar Hfree; unfold generic_html; fold br.
  rewrite replace_nl_join.
  assert (Hstar' : Forall (fun c => forallb not_star c = true)
                          (map (fun c => replace c nl br) segments)).
  { apply Forall_map; revert Hstar; apply Forall_impl; intros c Hc.
    apply replace_forallb; [discriminate | exact Hc | reflexivity]. }
  assert (Hfree' : Forall tag_free (map (fun c => replace c nl br) segments)).
  { apply Forall_map; revert Hfree; apply Forall_impl; intros c Hc.
    now apply replace_nl_tag_free. }
  change $"**" with (42%N :: [42%N]).
  rewrite split_join_clean;
    [| destruct segments; [congruence | discriminate] | lia | exact Hstar'].
  rewrite join_nil_concat, emphasis_loop_alternate, parity_rule_alternate.
  destruct (joined_no_doubled _ false Hfree') as [Ho Hc].
  unfold joined in Ho, Hc.
  change $"<b><b>" with (open_tag ++ open_tag).
  change $"</b></b>" with (close_tag ++ close_tag).
  rewrite (replace_absent _ (open_tag ++ open_tag))
    by (discriminate || exact Ho).
  apply replace_absent; [discriminate | exact Hc].
Qed.

Lemma generic_html_of_segments_witness :
  generic_html (join $"**" [ $"Dear "; $"Jane"; $", hello"])
  = concat (parity_rule
              (map (fun c => replace c nl br)
                   [ $"Dear "; $"Jane"; $", hello"])).
Proof.
  apply generic_html_of_segments; [discriminate | |];
    repeat constructor.
Defined.

Example segments_run :
  generic_html $"Dear **Jane**, hello" = $"Dear <b>Jane</b>, hello".
Proof. reflexivity. Qed.

(** * Counting the delimiters of a composed letter *)

Section Pairs.

Lemma star_pairs_app (a b : str) (p : bool) :
  star_pairs p (a ++ b)
  = star_pairs p a + star_pairs (star_pending p a) b.
Proof.
  revert p; induction a as [|x a IH]; intros p; [reflexivity|].
  cbn [app star_pairs star_pending].
  destruct (N.eqb x 42); [destruct p|]; rewrite IH; reflexivity.
Qed.

Lemma star_pending_app (a b : str) (p : bool) :
  star_pending p (a ++ b) = star_pending (star_pending p a) b.
Proof.
  revert p; induction a as [|x a IH]; intros p; [reflexivity|].
  cbn [app star_pending].
  destruct (N.eqb x 42); [destruct p|]; apply IH.
Qed.

Lemma startswith_stars (x : char) (s : str) :
  startswith (x :: s) $"**" = N.eqb x 42 && startswith s [42%N].
Proof. reflexivity. Qed.

Lemma startswith_star (x : char) (s : str) :
  startswith (x :: s) [42%N] = N.eqb x 42.
Proof. cbn [startswith]; apply andb_true_r. Qed.

Lemma star_pairs_none (s : str) (p : bool) :
  find s $"**" = None ->
  (p = true -> startswith s [42%N] = false) ->
  star_pairs p s = 0.
Proof.
  revert p; induction s as [|x s IH]; intros p F Hp; [reflexivity|].
  apply find_cons_None in F as [E F].
  rewrite startswith_stars in E; rewrite startswith_star in Hp.
  cbn [star_pairs]; destruct (N.eqb x 42); cbn [andb] in E.
  - destruct p; [now specialize (Hp eq_refl)|].
    apply IH; auto.
  - apply IH; [assumption | discriminate].
Qed.

Lemma star_pairs_some (s : str) (i : nat) (p : bool) :
  find s $"**" = Some i ->
  (p = true -> startswith s [42%N] = false) ->
  star_pairs p s = S (star_pairs false (skipn (i + 2) s)).
Proof.
  revert i p; induction s as [|x s IH]; intros i p F Hp; [discriminate|].
  cbn [find] in F; rewrite startswith_stars in F.
  rewrite startswith_star in Hp; cbn [star_pairs].
  destruct (N.eqb x 42); cbn [andb] in F.
  - destruct p; [now specialize (Hp eq_refl)|].
    destruct s as [|y s]; [discriminate|].
    rewrite startswith_star in F; cbn [star_pairs].
    destruct (N.eqb y 42) eqn:Ey.
    + injection F as <-; reflexivity.
    + destruct (find (y :: s) $"**") as [j|] eqn:G; [|discriminate].
      injection F as <-.
      change (skipn (S j + 2) (x :: y :: s)) with (skipn (j + 2) (y :: s)).
      rewrite <- (IH j true eq_refl); [now cbn [star_pairs]; rewrite Ey|].
      intros _; now rewrite startswith_star.
  - destruct (find s $"**") as [j|] eqn:G; [|discriminate].
    injection F as <-.
    change (skipn (S j + 2) (x :: s)) with (skipn (j + 2) s).
    apply IH; [reflexivity | discriminate].
Qed.

(** [count] is the number of pairs read from the left. *)
Lemma count_star_pairs (s : str) : count s $"**" = star_pairs false s.
Proof.
  induction s as [s IH] using str_length_ind.
  rewrite count_eq by discriminate.
  destruct (find s $"**") as [i|] eqn:F.
  - rewrite (star_pairs_some s i false F) by discriminate.
    f_equal; apply IH.
    now apply (find_Some_skip_length s $"**" i ltac:(discriminate)).
  - symmetry; now apply star_pairs_none.
Qed.

(** Line breaks for newlines change nothing for the stars. *)
Lemma star_scan_replace_nl (s : str) (p : bool) :
  star_pairs p (replace s nl br) = star_pairs p s
  /\ star_pending p (replace s nl br) = star_pending p s.
Proof.
  unfold nl; rewrite replace_char.
  revert p; induction s as [|x s IH]; intros p; [split; reflexivity|].
  cbn [flat_map]; destruct (N.eqb x 10) eqn:Ex.
  - apply N.eqb_eq in Ex; subst x; rewrite br_chars.
    cbn [app star_pairs star_pending N.eqb Pos.eqb]; apply IH.
  - cbn [app star_pairs star_pending].
    destruct (IH false) as [A1 B1]; destruct (IH true) as [A2 B2].
    destruct (N.eqb x 42); [destruct p|];
      rewrite ?A1, ?A2, ?B1, ?B2; split; reflexivity.
Qed.

Lemma count_replace_nl (s : str) :
  count (replace s nl br) $"**" = count s $"**".
Proof. rewrite !count_star_pairs; apply star_scan_replace_nl. Qed.

Lemma star_free_scan (f : str) :
  forallb not_star f = true ->
  star_pairs false f = 0 /\ star_pending false f = false.
Proof.
  induction f as [|x f IH]; [split; reflexivity|].
  cbn [forallb]; intros H; apply andb_prop in H as [Hx Hf].
  unfold not_star in Hx; apply negb_true_iff in Hx.
  cbn [star_pairs star_pending]; rewrite Hx; now apply IH.
Qed.

Lemma star_pairs_field (f r : str) :
  forallb not_star f = true ->
  star_pairs false (f ++ r) = star_pairs false r.
Proof.
  intros H; destruct (star_free_scan f H) as [H1 H2].
  now rewrite star_pairs_app, H1, H2.
Qed.

Lemma star_pairs_lit (t r : str) (p q : bool) (n : nat) :
  star_pairs p t = n -> star_pending p t = q ->
  star_pairs p (t ++ r) = n + star_pairs q r.
Proof. intros <- <-; apply star_pairs_app. Qed.

Lemma join_skills_star_free (skills : list str) :
  Forall (fun s => forallb not_star s = true) skills ->
  forallb not_star (join $", " skills) = true.
Proof.
  induction 1 as [|s ss Hs Hss IH]; [reflexivity|].
  destruct ss as [|s' ss]; [exact Hs|].
  rewrite join_cons by discriminate.
  now rewrite !forallb_app, Hs, IH.
Qed.

Lemma firstn_star_free (n : nat) (skills : list str) :
  Forall (fun s => forallb not_star s = true) skills ->
  Forall (fun s => forallb not_star s = true) (firstn n skills).
Proof.
  intros H; apply Forall_forall; intros x Hx.
  rewrite Forall_forall in H; apply H.
  rewrite <- (firstn_skipn n skills); apply in_or_app; now left.
Qed.

End Pairs.

Section LetterPairs.

Variables job_title company tone : str.
Variable skills : list str.

Hypothesis job_title_plain : forallb not_star job_title = true.
Hypothesis company_plain : forallb not_star company = true.
Hypothesis tone_plain : forallb not_star tone = true.
Hypothesis skills_plain :
  Forall (fun s => forallb not_star s = true) skills.

Ltac pair_up :=
  repeat first
    [ rewrite star_pairs_field by assumption
    | erewrite star_pairs_lit by (vm_compute; reflexivity)
    | reflexivity ].

Lemma letter_blocks_counts :
  map (fun b => count b $"**")
      (letter_blocks job_title company skills tone)
  = [2; 0; 4; 6; 4; 0; 0; 0].
Proof.
  pose proof (join_skills_star_free _ skills_plain) as Hall.
  pose proof (join_skills_star_free _ (firstn_star_free 2 _ skills_plain))
    as Htwo.
  assert (E1 : star_pairs false
                 (opening_paragraph job_title company skills) = 4)
    by (unfold opening_paragraph; pair_up).
  assert (E2 : star_pairs false (achievement_paragraph tone) = 6)
    by (unfold achievement_paragraph; pair_up).
  assert (E3 : star_pairs false (skills_paragraph skills tone) = 4)
    by (unfold skills_paragraph; pair_up).
  assert (E4 : star_pairs false (closing_paragraph company) = 0)
    by (unfold closing_paragraph; pair_up).
  unfold letter_blocks; cbn [map]; rewrite !count_star_pairs.
  rewrite E1, E2, E3, E4; reflexivity.
Qed.

End LetterPairs.

Section PlainTail.

Lemma even_count_plain_tail (text : str) :
  Nat.even (count text $"**") = true ->
  last (emphasis_loop (split text $"**" (-1))) []
  = last (split text $"**" (-1)) [].
Proof.
  intros Heven.
  assert (Hlen : length (split text $"**" (-1)) = S (count text $"**"))
    by (apply split_length_count; [discriminate | lia]).
  rewrite emphasis_loop_alternate, alternate_last by apply split_not_nil.
  rewrite Hlen, Nat.even_succ, <- Nat.negb_even, Heven; reflexivity.
Qed.

End PlainTail.

Lemma letter_blocks_well_paired (job_title company : str)
    (skills : list str) (tone : str) :
  forallb not_star job_title = true ->
  forallb not_star company = true ->
  forallb not_star tone = true ->
  Forall (fun s => forallb not_star s = true) skills ->
  map (fun b => count (replace b nl br) $"**")
      (letter_blocks job_title company skills tone)
  = [2; 0; 4; 6; 4; 0; 0; 0]
  /\ Forall (fun b =>
               last (emphasis_loop (split (replace b nl br) $"**" (-1))) []
               = last (split (replace b nl br) $"**" (-1)) [])
            (letter_blocks job_title company skills tone).
Proof.
  intros Hj Hc Ht Hs.
  pose proof (letter_blocks_counts job_title company tone skills
                Hj Hc Ht Hs) as Hcounts.
  assert (E : map (fun b => count (replace b nl br) $"**")
                  (letter_blocks job_title company skills tone)
              = [2; 0; 4; 6; 4; 0; 0; 0]).
  { rewrite <- Hcounts; apply map_ext; intros b; apply count_replace_nl. }
  split; [exact E|].
  assert (Heven : Forall (fun n => Nat.even n = true)
                         (map (fun b => count (replace b nl br) $"**")
                              (letter_blocks job_title company skills tone)))
    by (rewrite E; repeat constructor).
  rewrite Forall_map in Heven; revert Heven; apply Forall_impl.
  intros b; apply even_count_plain_tail.
Qed.

(** X9. When the job title, the company, the tone and the skills hold
    neither a star nor a blank line, the parts [create_pdf] splits the
    composed letter into are well paired, as the translator expects of
    them: there are eight, and after the newlines have become line
    breaks they hold 2, 0, 4, 6, 4, 0, 0 and 0 delimiters, an even number
    each, so the conversion of every part ends on a literal segment and
    none gets a bolded tail. *)
Theorem composed_letter_well_paired (job_title company : str)
    (skills : list str) (experience tone job_description : str) :
  forallb not_star job_title = true ->
  forallb not_star company = true ->
  forallb not_star tone = true ->
  Forall (fun s => forallb not_star s = true) skills ->
  find job_title blank_line = None ->
  find company blank_line = None ->
  find tone blank_line = None ->
  Forall (fun s => find s blank_line = None) skills ->
  let paragraphs :=
    split (generate_cover_letter job_title company skills experience tone
             job_description) blank_line (-1) in
  map (fun b => count (replace b nl br) $"**") paragraphs
  = [2; 0; 4; 6; 4; 0; 0; 0]
  /\ Forall (fun b =>
               last (emphasis_loop (split (replace b nl br) $"**" (-1))) []
               = last (split (replace b nl br) $"**" (-1)) [])
            paragraphs.
Proof.
  intros Hj Hc Ht Hs Bj Bc Bt Bs paragraphs; subst paragraphs.
  rewrite letter_paragraphs by assumption.
  now apply letter_blocks_well_paired.
Qed.

Lemma composed_letter_well_paired_witness :
  map (fun b => count (replace b nl br) $"**")
      (split (generate_cover_letter $"Data Scientist" $"Gemini Labs"
                [ $"Python"; $"PyTorch"] $"Led a team." $"Formal" $"")
             blank_line (-1))
  = [2; 0; 4; 6; 4; 0; 0; 0]
  /\ Forall (fun b =>
               last (emphasis_loop (split (replace b nl br) $"**" (-1))) []
               = last (split (replace b nl br) $"**" (-1)) [])
            (split (generate_cover_letter $"Data Scientist" $"Gemini Labs"
                      [ $"Python"; $"PyTorch"] $"Led a team." $"Formal" $"")
                   blank_line (-1)).
Proof.
  apply composed_letter_well_paired; try reflexivity;
    repeat constructor.
Defined.

(** X10. The page passes [skills.split(', ')] to the composer, and the
    skills paragraph joins the list with the same separator: whatever
    was typed in the skills field stands in the letter character for
    character, and the list passed is never empty. *)
Theorem skills_field_verbatim
    (job_title company experience tone job_description : str) :
  exists lead between rest,
    forall skills_text,
      split skills_text $", " (-1) <> []
      /\ generate_cover_letter job_title company
           (split skills_text $", " (-1)) experience tone job_description
         = header_block ++ blank_line ++ lead
           ++ join $", " (firstn 2 (split skills_text $", " (-1)))
           ++ between ++ skills_text ++ rest.
Proof.
  do 3 eexists; intros skills_text; split; [apply split_not_nil|].
  rewrite <- (join_split_id skills_text $", " (-1)) at 3 by discriminate.
  generalize (split skills_text $", " (-1)); intros skills.
  open_letter.
  gather_until (join $", " (firstn 2 skills)).
  apply f_equal2; [reflexivity|]; apply f_equal.
  gather_until (join $", " skills); reflexivity.
Qed.

Lemma skills_field_verbatim_witness :
  exists lead between rest,
    forall skills_text,
      split skills_text $", " (-1) <> []
      /\ generate_cover_letter $"Data Scientist" $"Gemini Labs"
           (split skills_text $", " (-1)) $"Led a team." $"Formal" $""
         = header_block ++ blank_line ++ lead
           ++ join $", " (firstn 2 (split skills_text $", " (-1)))
           ++ between ++ skills_text ++ rest.
Proof.
  exact (skills_field_verbatim $"Data Scientist" $"Gemini Labs"
           $"Led a team." $"Formal" $"").
Defined.

(** X11. The name of the download is the company, the job title and the
    tone between underscores, followed by the fixed ending; of the three
    only the tone is changed, and only by dropping its spaces (U+0020):
    every other character of the three fields, white space and path
    separators included, is kept as typed. *)
Theorem download_file_name_shape (company_name job_title tone : str) :
  download_file_name company_name job_title tone
  = company_name ++ $"_" ++ job_title ++ $"_"
    ++ filter (fun c => negb (N.eqb c 32)) tone ++ $"_Cover_Letter.pdf".
Proof.
  unfold download_file_name; do 4 f_equal.
  change $" " with [32%N]; rewrite replace_char.
  induction tone as [|c t IH]; [reflexivity|].
  cbn [flat_map filter]; destruct (N.eqb c 32); cbn [negb app];
    now rewrite IH.
Qed.

(** * The session *)

Section Session.

Variable parses : str -> style -> bool.

Variable build : list flowable -> result (list Byte.byte).

Lemma generate_button_completed (w : widgets) (state state' : session_state) :
  in_step parses build state ->
  generate_button parses build w state = (state', None) ->
  in_step parses build state'.
Proof.
  intros H; unfold generate_button.
  destruct (truthy (job_title w) && truthy (company_name w)
            && truthy (skills w) && truthy (experience w));
    [|now intros [= <-]].
  match goal with
  | |- context [create_pdf parses build ?l] =>
      destruct (create_pdf parses build l) as [e|pdf] eqn:E
  end; [discriminate|].
  intros [= <-]; exact E.
Qed.

Lemma generate_button_raised (w : widgets) (state state' : session_state)
    (e : exn) :
  generate_button parses build w state = (state', Some e) -> state' = state.
Proof.
  unfold generate_button.
  destruct (truthy (job_title w) && truthy (company_name w)
            && truthy (skills w) && truthy (experience w));
    [|discriminate].
  destruct (create_pdf parses build _); [now intros [= <-] | discriminate].
Qed.

Lemma output_section_completed (w : widgets) (state state' : session_state) :
  in_step parses build state ->
  output_section parses build w state = (state', None) ->
  in_step parses build state'.
Proof.
  intros H; unfold output_section.
  destruct (generated_letter state) as [letter|] eqn:G; [|now intros [= <-]].
  destruct (truthy letter); [|now intros [= <-]].
  destruct (str_eqb (edited_letter w) letter); cbn [negb];
    [now intros [= <-]|].
  destruct (create_pdf parses build (edited_letter w)) as [e|pdf] eqn:E;
    [discriminate|].
  intros [= <-]; exact E.
Qed.

Lemma output_section_raised (w : widgets) (state state' : session_state)
    (e : exn) :
  output_section parses build w state = (state', Some e) ->
  generated_letter state' = Some (edited_letter w)
  /\ pdf_output state' = pdf_output state
  /\ create_pdf parses build (edited_letter w) = inl e.
Proof.
  unfold output_section.
  destruct (generated_letter state) as [letter|]; [|discriminate].
  destruct (truthy letter); [|discriminate].
  destruct (str_eqb (edited_letter w) letter); cbn [negb]; [discriminate|].
  destruct (create_pdf parses build (edited_letter w)) as [e'|pdf] eqn:E;
    [|discriminate].
  intros [= <- <-]; auto.
Qed.

Lemma script_run_completed (w : widgets) (state state' : session_state) :
  in_step parses build state ->
  script_run parses build w state = (state', None) ->
  in_step parses build state'.
Proof.
  intros H; unfold script_run.
  destruct (clicked w).
  - destruct (generate_button parses build w state) as [s1 [e|]] eqn:B;
      cbn [fst snd]; [discriminate|].
    apply output_section_completed.
    now apply (generate_button_completed w state).
  - cbn [fst snd]; now apply output_section_completed.
Qed.

Lemma script_runs_completed (ws : list widgets)
    (state state' : session_state) :
  in_step parses build state ->
  script_runs parses build ws state = (state', true) ->
  in_step parses build state'.
Proof.
  revert state; induction ws as [|w ws IH]; intros state H.
  - now intros [= <-].
  - cbn [script_runs].
    destruct (script_run parses build w state) as [s1 [e|]] eqn:R;
      cbn [fst snd]; [discriminate|].
    destruct (script_runs parses build ws s1) as [s2 ok] eqn:L;
      cbn [fst snd]; intros [= <- ->].
    apply (IH s1); [now apply (script_run_completed w state) | exact L].
Qed.

End Session.

(** X12. Whatever [Paragraph] refuses and whatever the build does: as
    long as the runs of the script from a fresh session complete (clicks
    on the button with any field values, edits of the draft to any text),
    the stored document is in step with the stored text: with no letter
    stored there is no document, and otherwise [pdf_output] is what
    [create_pdf] returns for [generated_letter], the bytes or [None]. A
    raise under the button leaves the session as it was. A raise in the
    output section comes after line 257 has stored the edited text: the
    session then holds the new text with the document of the old one. *)
Theorem session_stays_in_step
    (parses : str -> style -> bool)
    (build : list flowable -> result (list Byte.byte)) :
  (forall ws state,
      script_runs parses build ws initial_state = (state, true) ->
      in_step parses build state)
  /\ (forall w state state' e,
         generate_button parses build w state = (state', Some e) ->
         state' = state)
  /\ (forall w state state' e,
         output_section parses build w state = (state', Some e) ->
         generated_letter state' = Some (edited_letter w)
         /\ pdf_output state' = pdf_output state
         /\ create_pdf parses build (edited_letter w) = inl e
         /\ ~ in_step parses build state').
Proof.
  split; [|split].
  - intros ws state; apply script_runs_completed; reflexivity.
  - apply generate_button_raised.
  - intros w state state' e R.
    destruct (output_section_raised parses build w state state' e R)
      as (G & P & C).
    repeat split; try assumption.
    unfold in_step; rewrite G, C; discriminate.
Qed.

Lemma session_stays_in_step_witness :
  in_step (fun _ _ => true) (fun _ => inr [])
    {| generated_letter := Some $"Dear team";
       pdf_output := Some [] |}
  /\ generated_letter
       (fst (output_section
               (fun text _ => negb (str_eqb text $"a<b"))
               (fun _ => inr [])
               {| job_title := $""; skills := $""; company_name := $"";
                  tone := $""; experience := $""; job_description := $"";
                  clicked := false; edited_letter := $"a<b" |}
               {| generated_letter := Some $"Dear team";
                  pdf_output := Some [] |}))
     = Some $"a<b"
  /\ pdf_output
       (fst (output_section
               (fun text _ => negb (str_eqb text $"a<b"))
               (fun _ => inr [])
               {| job_title := $""; skills := $""; company_name := $"";
                  tone := $""; experience := $""; job_description := $"";
                  clicked := false; edited_letter := $"a<b" |}
               {| generated_letter := Some $"Dear team";
                  pdf_output := Some [] |}))
     = Some [].
Proof.
  split.
  - apply (proj1 (session_stays_in_step (fun _ _ => true) (fun _ => inr []))
             [ {| job_title := $"Dev"; skills := $"Go"; company_name := $"Acme";
                  tone := $"Formal"; experience := $"Two years.";
                  job_description := $"";
                  clicked := true; edited_letter := $"Dear team" |} ]).
    vm_compute; reflexivity.
  - destruct (proj2 (proj2 (session_stays_in_step
                              (fun text _ => negb (str_eqb text $"a<b"))
                              (fun _ => inr [])))
                {| job_title := $""; skills := $""; company_name := $"";
                   tone := $""; experience := $""; job_description := $"";
                   clicked := false; edited_letter := $"a<b" |}
                {| generated_letter := Some $"Dear team";
                   pdf_output := Some [] |}
                _ ValueError eq_refl) as (G & P & _).
    split; [exact G | exact P].
Defined.

(** X13. When the job title, the company, the tone and the skills hold
    no blank line, the composed letter translates block by block: the
    header always to the same markup, the name in the bold pair followed
    by two line breaks and the two contact lines, whatever the request;
    the salutation, the sign-off and the name line to themselves; each of
    the four paragraphs to its generic markup. *)
Theorem composed_letter_translation (job_title company : str)
    (skills : list str) (experience tone job_description : str) :
  find job_title blank_line = None ->
  find company blank_line = None ->
  find tone blank_line = None ->
  Forall (fun s => find s blank_line = None) skills ->
  translate (generate_cover_letter job_title company skills experience
               tone job_description)
  = inr [(Header,
          $"<b>[Your Name]</b><br/><br/>"
          ++ $"[Your Phone Number] | [Your Email Address]<br/>"
          ++ $"[Your LinkedIn/Portfolio URL]");
         (Body_Justify, salutation);
         (Body_Justify,
          generic_html (opening_paragraph job_title company skills));
         (Body_Justify, generic_html (achievement_paragraph tone));
         (Body_Justify, generic_html (skills_paragraph skills tone));
         (Body_Justify, generic_html (closing_paragraph company));
         (Body_Justify, sign_off);
         (Body_Justify, name_line)].
Proof.
  intros Hj Hc Ht Hs.
  rewrite translate_map_kept, letter_paragraphs by assumption.
  rewrite letter_blocks_kept.
  pose proof (letter_blocks_roles job_title company skills tone) as R.
  set (ps := letter_blocks job_title company skills tone) in *.
  unfold ps in R at 2; unfold letter_blocks in R; cbn [map repeat] in R.
  unfold ps at 3; unfold letter_blocks; cbn [map].
  assert (R0 : role_of ps header_block = Header) by congruence.
  assert (R1 : role_of ps salutation = Body_Justify) by congruence.
  assert (R2 : role_of ps (opening_paragraph job_title company skills)
               = Body_Justify) by congruence.
  assert (R3 : role_of ps (achievement_paragraph tone) = Body_Justify)
    by congruence.
  assert (R4 : role_of ps (skills_paragraph skills tone) = Body_Justify)
    by congruence.
  assert (R5 : role_of ps (closing_paragraph company) = Body_Justify)
    by congruence.
  assert (R6 : role_of ps sign_off = Body_Justify) by congruence.
  assert (R7 : role_of ps name_line = Body_Justify) by congruence.
  rewrite R0, R1, R2, R3, R4, R5, R6, R7; cbn [markup_of].
  reflexivity.
Qed.

Lemma composed_letter_translation_witness :
  exists paragraphs,
    translate (generate_cover_letter $"Data Scientist" $"Gemini Labs"
                 [ $"Python"; $"PyTorch"] $"Led a team." $"Formal" $"")
    = inr ((Header,
            $"<b>[Your Name]</b><br/><br/>"
            ++ $"[Your Phone Number] | [Your Email Address]<br/>"
            ++ $"[Your LinkedIn/Portfolio URL]")
           :: (Body_Justify, salutation) :: paragraphs).
Proof.
  eexists.
  apply (composed_letter_translation $"Data Scientist" $"Gemini Labs"
           [ $"Python"; $"PyTorch"] $"Led a team." $"Formal" $"");
    try reflexivity.
  repeat constructor.
Defined.

(** X14. A text made of white space only, the empty one included, is
    not refused: no paragraph is asked for, the renderer is called with
    an empty story, and [create_pdf] returns what it makes of it, the
    bytes or [None]. *)
Theorem blank_text_empty_story
    (parses : str -> style -> bool)
    (build : list flowable -> result (list Byte.byte))
    (cover_letter_text : str) :
  forallb isspace cover_letter_text = true ->
  build_story parses cover_letter_text = inr []
  /\ create_pdf parses build cover_letter_text
     = inr (match build [] with
            | inl _ => None
            | inr pdf_value => Some pdf_value
            end).
Proof.
  intros Hws.
  assert (E : build_story parses cover_letter_text = inr []).
  { rewrite build_story_flowables; cbv zeta.
    rewrite filter_all_blank; [reflexivity|].
    apply split_forallb; [discriminate | exact Hws]. }
  split; [exact E|].
  unfold create_pdf; rewrite E; cbn [bind].
  destruct (build []); reflexivity.
Qed.

Lemma blank_text_empty_story_witness :
  build_story (fun _ _ => false) ($"  " ++ nl ++ nl ++ $" ") = inr []
  /\ create_pdf (fun _ _ => false) (fun _ => inl RendererError)
       ($"  " ++ nl ++ nl ++ $" ")
     = inr None.
Proof.
  apply (blank_text_empty_story (fun _ _ => false)
           (fun _ => inl RendererError)).
  reflexivity.
Defined.
